(** * Savant Sales AI client: recording registry, capture controller, upload

    A shallow embedding of

    - [src/app/context/RecordingContext.tsx] (the recording registry kept by
      [RecordingProvider] and persisted through AsyncStorage),
    - [src/app/(tabs)/index.tsx] (the capture / upload screen), and
    - the earlier revision of that screen whose upload checks the file first,

    together with the properties stated about them.

    Conventions.  React state is an explicit record; every handler is a
    function from the state before the call to the state after it, run to
    completion (callers await each call before issuing the next one).  What
    the platform answers (AsyncStorage, expo-av, fetch, the clock) is an
    explicit argument of the handler.  A [try]/[catch] is written out: the
    state updates made before the throwing call are kept, the later ones are
    skipped, and the [catch] block's log entry is appended. *)

From Stdlib Require Import ZArith NArith Ascii String List Bool Lia.
From stdpp Require Import base option list strings gmap.
Import ListNotations.

Local Open Scope Z_scope.

(** * Part I.  Definitions *)

(** ** JavaScript values that occur in the client *)

(** A JavaScript string, as the sequence of its code units.  The embedding
    covers the code units below 256. *)
Definition text := list ascii.

(** A JavaScript number, counted in thousandths: [n] stands for [n / 1000].
    The client produces two kinds of numbers: integers ([Date.now()],
    [response.status]) and integer millisecond counts divided by 1000
    ([status.durationMillis / 1000]); both are exact in this representation.
    Arbitrary doubles are outside the embedding. *)
Definition number := Z.

Definition of_int (z : Z) : number := z * 1000.

(** [ms / 1000] for an integer count of milliseconds. *)
Definition div1000 (ms : Z) : number := ms.

(** The numbers on which the representation agrees with IEEE doubles: at
    most 15 significant decimal digits, or an integer below 2^53. *)
Definition safe_magnitude (m : N) : bool :=
  ((m <? 10 ^ 15) || ((m mod 1000 =? 0) && (m / 1000 <? 2 ^ 53)))%N.

Definition safe_number (n : number) : bool := safe_magnitude (Z.abs_N n).

(** ** JSON *)

(** The value tree that [JSON.parse] builds and [JSON.stringify] walks.
    An object keeps its members in property order. *)
#[local] Unset Elimination Schemes.
Inductive json : Type :=
| JNull
| JBool (b : bool)
| JNum (n : number)
| JStr (s : string)
| JArr (items : list json)
| JObj (members : list (string * json)).
#[local] Set Elimination Schemes.

(** *** [JSON.stringify] *)

Definition digit_char (d : N) : ascii := ascii_of_N (48 + d).

(** Decimal digits, least significant first. *)
Fixpoint rdigits (fuel : nat) (q : N) : list ascii :=
  match fuel with
  | O => []
  | S fuel' =>
      digit_char (q mod 10)
        :: (if (q / 10 =? 0)%N then [] else rdigits fuel' (q / 10))
  end.

Definition digits (q : N) : list ascii :=
  rev (rdigits (S (N.to_nat (N.size q))) q).

(** The fraction of a number with [r] thousandths, [0 < r < 1000], without
    trailing zeros. *)
Definition frac_digits (r : N) : list ascii :=
  let d1 := (r / 100)%N in
  let d2 := ((r / 10) mod 10)%N in
  let d3 := (r mod 10)%N in
  if (d3 =? 0)%N then
    if (d2 =? 0)%N then [digit_char d1] else [digit_char d1; digit_char d2]
  else [digit_char d1; digit_char d2; digit_char d3].

(** [Number::toString] on the safe numbers of the embedding (beyond them
    the platform switches to exponent notation or rounds). *)
Definition print_number (n : number) : text :=
  let m := Z.abs_N n in
  let q := (m / 1000)%N in
  let r := (m mod 1000)%N in
  (if n <? 0 then ["-"%char] else [])
    ++ digits q
    ++ (if (r =? 0)%N then [] else "."%char :: frac_digits r).

Definition hex_char (d : N) : ascii :=
  if (d <? 10)%N then ascii_of_N (48 + d) else ascii_of_N (87 + d).

(** [QuoteJSONString] on one code unit. *)
Definition escape_char (c : ascii) : text :=
  let n := N_of_ascii c in
  if (n =? 34)%N then ["\"%char; "034"%char]
  else if (n =? 92)%N then ["\"%char; "\"%char]
  else if (n =? 8)%N then ["\"%char; "b"%char]
  else if (n =? 9)%N then ["\"%char; "t"%char]
  else if (n =? 10)%N then ["\"%char; "n"%char]
  else if (n =? 12)%N then ["\"%char; "f"%char]
  else if (n =? 13)%N then ["\"%char; "r"%char]
  else if (n <? 32)%N then
    ["\"%char; "u"%char; "0"%char; "0"%char; hex_char (n / 16); hex_char (n mod 16)]
  else [c].

Definition quote (s : string) : text :=
  "034"%char :: flat_map escape_char (list_ascii_of_string s) ++ ["034"%char].

Fixpoint print (j : json) : text :=
  match j with
  | JNull => list_ascii_of_string "null"
  | JBool true => list_ascii_of_string "true"
  | JBool false => list_ascii_of_string "false"
  | JNum n => print_number n
  | JStr s => quote s
  | JArr items =>
      "["%char
        :: match items with
           | [] => []
           | x :: more =>
               print x ++ flat_map (fun y => ","%char :: print y) more
           end
        ++ ["]"%char]
  | JObj members =>
      "{"%char
        :: match members with
           | [] => []
           | (k, x) :: more =>
               (quote k ++ ":"%char :: print x)
                 ++ flat_map
                      (fun m => ","%char :: quote (fst m) ++ ":"%char :: print (snd m))
                      more
           end
        ++ ["}"%char]
  end.

Definition JSON_stringify (j : json) : string := string_of_list_ascii (print j).

(** *** [JSON.parse]: the scanner *)

Inductive token : Type :=
| TLBracket | TRBracket | TLBrace | TRBrace | TComma | TColon
| TNull
| TBool (b : bool)
| TNum (n : number)
| TStr (s : string).

(** Scanner states.  String contents are accumulated in reverse. *)
Inductive lstate : Type :=
| LStart
| LWord (rest : text) (t : token)
| LStr (acc : text)
| LEsc (acc : text)
| LHex (acc : text) (k : nat) (v : N)
| LMinus
| LZero (neg : bool)
| LInt (neg : bool) (q : N)
| LDot (neg : bool) (q : N)
| LFrac (neg : bool) (q : N) (k : nat) (f : N)
| LExpE
| LExpSign
| LExp.

Definition is_ws (n : N) : bool :=
  ((n =? 32) || (n =? 9) || (n =? 10) || (n =? 13))%N.

Definition is_digit (n : N) : bool := ((48 <=? n) && (n <=? 57))%N.

Definition hex_value (n : N) : option N :=
  if is_digit n then Some (n - 48)%N
  else if ((97 <=? n) && (n <=? 102))%N then Some (n - 87)%N
  else if ((65 <=? n) && (n <=? 70))%N then Some (n - 55)%N
  else None.

(** A step yields the tokens completed by the character (latest first),
    whether a literal fell outside the embedding, and the next state. *)
Definition lex_result : Type := option (list token * bool * lstate).

Definition lex_start (c : ascii) : lex_result :=
  let n := N_of_ascii c in
  if is_ws n then Some ([], false, LStart)
  else if (n =? 91)%N then Some ([TLBracket], false, LStart)
  else if (n =? 93)%N then Some ([TRBracket], false, LStart)
  else if (n =? 123)%N then Some ([TLBrace], false, LStart)
  else if (n =? 125)%N then Some ([TRBrace], false, LStart)
  else if (n =? 44)%N then Some ([TComma], false, LStart)
  else if (n =? 58)%N then Some ([TColon], false, LStart)
  else if (n =? 34)%N then Some ([], false, LStr [])
  else if (n =? 45)%N then Some ([], false, LMinus)
  else if (n =? 48)%N then Some ([], false, LZero false)
  else if is_digit n then Some ([], false, LInt false (n - 48))
  else if (n =? 110)%N then Some ([], false, LWord (list_ascii_of_string "ull") TNull)
  else if (n =? 116)%N then Some ([], false, LWord (list_ascii_of_string "rue") (TBool true))
  else if (n =? 102)%N then Some ([], false, LWord (list_ascii_of_string "alse") (TBool false))
  else None.

(** The number token for sign [neg], integer part [q] and [k] fraction
    digits of value [f]; literals with more than three fraction digits or
    beyond the safe range are flagged. *)
Definition finish_number (neg : bool) (q : N) (k : nat) (f : N) : token * bool :=
  let scaled : option N :=
    match k with
    | 0%nat => Some (q * 1000)%N
    | 1%nat => Some (q * 1000 + f * 100)%N
    | 2%nat => Some (q * 1000 + f * 10)%N
    | 3%nat => Some (q * 1000 + f)%N
    | _ => None
    end in
  match scaled with
  | Some m =>
      (TNum (if neg then - Z.of_N m else Z.of_N m), negb (safe_magnitude m))
  | None => (TNum 0, true)
  end.

(** A number ended at [c]: emit it, then scan [c] afresh. *)
Definition then_start (num : token * bool) (c : ascii) : lex_result :=
  match lex_start c with
  | Some (ts, o, st) => Some (ts ++ [fst num], snd num || o, st)
  | None => None
  end.

Definition is_exp_mark (n : N) : bool := ((n =? 101) || (n =? 69))%N.

Definition lex_step (st : lstate) (c : ascii) : lex_result :=
  let n := N_of_ascii c in
  match st with
  | LStart => lex_start c
  | LWord rest t =>
      match rest with
      | [] => None
      | x :: more =>
          if Ascii.eqb c x then
            match more with
            | [] => Some ([t], false, LStart)
            | _ => Some ([], false, LWord more t)
            end
          else None
      end
  | LStr acc =>
      if (n =? 34)%N then Some ([TStr (string_of_list_ascii (rev acc))], false, LStart)
      else if (n =? 92)%N then Some ([], false, LEsc acc)
      else if (n <? 32)%N then None
      else Some ([], false, LStr (c :: acc))
  | LEsc acc =>
      if (n =? 34)%N || (n =? 92)%N || (n =? 47)%N then Some ([], false, LStr (c :: acc))
      else if (n =? 98)%N then Some ([], false, LStr (ascii_of_N 8 :: acc))
      else if (n =? 102)%N then Some ([], false, LStr (ascii_of_N 12 :: acc))
      else if (n =? 110)%N then Some ([], false, LStr (ascii_of_N 10 :: acc))
      else if (n =? 114)%N then Some ([], false, LStr (ascii_of_N 13 :: acc))
      else if (n =? 116)%N then Some ([], false, LStr (ascii_of_N 9 :: acc))
      else if (n =? 117)%N then Some ([], false, LHex acc 4 0)
      else None
  | LHex acc k v =>
      match hex_value n with
      | None => None
      | Some h =>
          let v' := (16 * v + h)%N in
          match k with
          | 0%nat => None
          | 1%nat =>
              if (v' <? 256)%N then Some ([], false, LStr (ascii_of_N v' :: acc))
              else Some ([], true, LStr acc)
          | S k' => Some ([], false, LHex acc k' v')
          end
      end
  | LMinus =>
      if (n =? 48)%N then Some ([], false, LZero true)
      else if is_digit n then Some ([], false, LInt true (n - 48))
      else None
  | LZero neg =>
      if (n =? 46)%N then Some ([], false, LDot neg 0)
      else if is_exp_mark n then Some ([], false, LExpE)
      else then_start (finish_number neg 0 0 0) c
  | LInt neg q =>
      if is_digit n then Some ([], false, LInt neg (10 * q + (n - 48)))
      else if (n =? 46)%N then Some ([], false, LDot neg q)
      else if is_exp_mark n then Some ([], false, LExpE)
      else then_start (finish_number neg q 0 0) c
  | LDot neg q =>
      if is_digit n then Some ([], false, LFrac neg q 1 (n - 48)) else None
  | LFrac neg q k f =>
      if is_digit n then Some ([], false, LFrac neg q (S k) (10 * f + (n - 48)))
      else if is_exp_mark n then Some ([], false, LExpE)
      else then_start (finish_number neg q k f) c
  | LExpE =>
      if (n =? 43)%N || (n =? 45)%N then Some ([], false, LExpSign)
      else if is_digit n then Some ([], false, LExp)
      else None
  | LExpSign => if is_digit n then Some ([], false, LExp) else None
  | LExp =>
      if is_digit n then Some ([], false, LExp)
      else then_start (TNum 0, true) c
  end.

Definition lex_eof (st : lstate) (out : list token) (off : bool)
  : option (list token * bool) :=
  let close (num : token * bool) := Some (fst num :: out, snd num || off) in
  match st with
  | LStart => Some (out, off)
  | LZero neg => close (finish_number neg 0 0 0)
  | LInt neg q => close (finish_number neg q 0 0)
  | LFrac neg q k f => close (finish_number neg q k f)
  | LExp => close (TNum 0, true)
  | _ => None
  end.

(** [out] collects the tokens latest first; [off] records whether some
    literal fell outside the embedding. *)
Fixpoint lex_run (st : lstate) (out : list token) (off : bool) (cs : text)
  : option (list token * bool) :=
  match cs with
  | [] => lex_eof st out off
  | c :: cs' =>
      match lex_step st c with
      | None => None
      | Some (ts, o, st') => lex_run st' (ts ++ out) (o || off) cs'
      end
  end.

(** *** [JSON.parse]: the grammar *)

Inductive frame : Type :=
| FArr (done : list json)
| FObj (done : list (string * json)) (key : string).

Inductive pstate : Type :=
| PValue (k : list frame)
| PArrFirst (k : list frame)
| PObjFirst (k : list frame)
| PObjKey (done : list (string * json)) (k : list frame)
| PObjColon (done : list (string * json)) (key : string) (k : list frame)
| PArrNext (done : list json) (k : list frame)
| PObjNext (done : list (string * json)) (k : list frame)
| PEnd (j : json).

(** The state after value [v] has been completed below the frames [k]. *)
Definition feed (v : json) (k : list frame) : pstate :=
  match k with
  | [] => PEnd v
  | FArr done :: k' => PArrNext (v :: done) k'
  | FObj done key :: k' => PObjNext ((key, v) :: done) k'
  end.

Definition parse_value (k : list frame) (t : token) : option pstate :=
  match t with
  | TNull => Some (feed JNull k)
  | TBool b => Some (feed (JBool b) k)
  | TNum n => Some (feed (JNum n) k)
  | TStr s => Some (feed (JStr s) k)
  | TLBracket => Some (PArrFirst k)
  | TLBrace => Some (PObjFirst k)
  | _ => None
  end.

Definition parse_step (st : pstate) (t : token) : option pstate :=
  match st with
  | PValue k => parse_value k t
  | PArrFirst k =>
      match t with
      | TRBracket => Some (feed (JArr []) k)
      | _ => parse_value (FArr [] :: k) t
      end
  | PObjFirst k =>
      match t with
      | TRBrace => Some (feed (JObj []) k)
      | TStr s => Some (PObjColon [] s k)
      | _ => None
      end
  | PObjKey done k =>
      match t with
      | TStr s => Some (PObjColon done s k)
      | _ => None
      end
  | PObjColon done key k =>
      match t with
      | TColon => Some (PValue (FObj done key :: k))
      | _ => None
      end
  | PArrNext done k =>
      match t with
      | TComma => Some (PValue (FArr done :: k))
      | TRBracket => Some (feed (JArr (rev done)) k)
      | _ => None
      end
  | PObjNext done k =>
      match t with
      | TComma => Some (PObjKey done k)
      | TRBrace => Some (feed (JObj (rev done)) k)
      | _ => None
      end
  | PEnd _ => None
  end.

Fixpoint parse_run (st : pstate) (ts : list token) : option json :=
  match ts with
  | [] => match st with PEnd j => Some j | _ => None end
  | t :: ts' =>
      match parse_step st t with
      | Some st' => parse_run st' ts'
      | None => None
      end
  end.

(** What [JSON.parse] does with a text: it throws a [SyntaxError], or it
    returns a value.  [Unmodelled] marks the texts whose value contains a
    number or a code unit that the embedding does not represent. *)
Inductive parsed : Type :=
| SyntaxError
| Unmodelled
| Parsed (j : json).

Definition JSON_parse (s : string) : parsed :=
  match lex_run LStart [] false (list_ascii_of_string s) with
  | None => SyntaxError
  | Some (out, off) =>
      match parse_run (PValue []) (rev out) with
      | None => SyntaxError
      | Some j => if off then Unmodelled else Parsed j
      end
  end.

(** Property access [data.name] on a parsed value, for a name that only
    an object can have as a property: [None] is the [TypeError] raised on
    [null]; [Some None] is [undefined].  When a name occurs more than once
    in the text the last member wins. *)
Fixpoint lookup_member (name : string) (members : list (string * json)) : option json :=
  match members with
  | [] => None
  | (k, v) :: more =>
      match lookup_member name more with
      | Some v' => Some v'
      | None => if String.eqb k name then Some v else None
      end
  end.

Definition get_prop (data : json) (name : string) : option (option json) :=
  match data with
  | JNull => None
  | JObj members => Some (lookup_member name members)
  | _ => Some None
  end.

(** [!!v] for a value read from parsed JSON ([None] is [undefined]). *)
Definition truthy (v : option json) : bool :=
  match v with
  | None => false
  | Some JNull => false
  | Some (JBool b) => b
  | Some (JNum n) => negb (n =? 0)
  | Some (JStr s) => negb (String.eqb s EmptyString)
  | Some (JArr _) => true
  | Some (JObj _) => true
  end.

(** ** [types/recording.ts] *)

Record Recording : Type := {
  id : string;
  uri : string;
  duration : number;
  timestamp : number;
  summary : option string;
  title : string
}.

(** [Partial<Recording>]: [None] is a key the object does not have. *)
Record Partial_Recording : Type := {
  upd_id : option string;
  upd_uri : option string;
  upd_duration : option number;
  upd_timestamp : option number;
  upd_summary : option string;
  upd_title : option string
}.

(** [{ ...recording, ...updates }] *)
Definition spread (recording : Recording) (updates : Partial_Recording) : Recording :=
  {| id := default (id recording) (upd_id updates);
     uri := default (uri recording) (upd_uri updates);
     duration := default (duration recording) (upd_duration updates);
     timestamp := default (timestamp recording) (upd_timestamp updates);
     summary := match upd_summary updates with
                | Some s => Some s
                | None => summary recording
                end;
     title := default (title recording) (upd_title updates) |}.

(** The object literal [{ title: X }]. *)
Definition only_title (X : string) : Partial_Recording :=
  {| upd_id := None; upd_uri := None; upd_duration := None;
     upd_timestamp := None; upd_summary := None; upd_title := Some X |}.

(** A recording as the JSON object [JSON.stringify] sees: the properties in
    the order in which [stopRecording] creates them, [summary] (only ever
    added later by a spread) last, and left out while it is [undefined]. *)
Definition encodeRecording (r : Recording) : json :=
  JObj ([("id", JStr (id r)); ("uri", JStr (uri r));
         ("duration", JNum (duration r)); ("timestamp", JNum (timestamp r));
         ("title", JStr (title r))]
          ++ match summary r with
             | Some s => [("summary", JStr s)]
             | None => []
             end).

Definition encodeRecordings (l : list Recording) : json :=
  JArr (List.map encodeRecording l).

(** The parsed value read as [Recording[]].  The code does not check the
    cast; [None] marks a value that is not an array of recordings. *)
Definition decodeRecording (j : json) : option Recording :=
  match j with
  | JObj [("id", JStr i); ("uri", JStr u); ("duration", JNum d);
          ("timestamp", JNum t); ("title", JStr ti)] =>
      Some {| id := i; uri := u; duration := d; timestamp := t;
              summary := None; title := ti |}
  | JObj [("id", JStr i); ("uri", JStr u); ("duration", JNum d);
          ("timestamp", JNum t); ("title", JStr ti); ("summary", JStr s)] =>
      Some {| id := i; uri := u; duration := d; timestamp := t;
              summary := Some s; title := ti |}
  | _ => None
  end.

Fixpoint decodeAll (items : list json) : option (list Recording) :=
  match items with
  | [] => Some []
  | j :: more =>
      match decodeRecording j, decodeAll more with
      | Some r, Some l => Some (r :: l)
      | _, _ => None
      end
  end.

Definition decodeRecordings (j : json) : option (list Recording) :=
  match j with
  | JArr items => decodeAll items
  | _ => None
  end.

(** A recording whose numbers are in the range the embedding covers. *)
Definition valid_recording (r : Recording) : bool :=
  safe_number (duration r) && safe_number (timestamp r).

(** ** [context/RecordingContext.tsx] *)

Definition STORAGE_KEY : string := "@recordings".

(** The provider: the [recordings] state, the device's AsyncStorage, and
    the lines the provider wrote with [console.error]. *)
Record Registry : Type := {
  recordings : list Recording;
  storage : gmap string string;
  errors : list string
}.

(** [useState<Recording[]>([])] over a given device storage. *)
Definition mount (disk : gmap string string) : Registry :=
  {| recordings := []; storage := disk; errors := [] |}.

(** [AsyncStorage.setItem] and [AsyncStorage.getItem] on the device
    storage; [ok] tells whether the promise resolves, and [None] is a
    rejection.  A rejected write leaves the storage as it was. *)
Definition AsyncStorage_setItem (ok : bool) (key value : string)
    (disk : gmap string string) : option (gmap string string) :=
  if ok then Some (<[key := value]> disk) else None.

Definition AsyncStorage_getItem (ok : bool) (key : string)
    (disk : gmap string string) : option (option string) :=
  if ok then Some (disk !! key) else None.

Definition setRecordings (l : list Recording) (p : Registry) : Registry :=
  {| recordings := l; storage := storage p; errors := errors p |}.

Definition written (disk : gmap string string) (p : Registry) : Registry :=
  {| recordings := recordings p; storage := disk; errors := errors p |}.

Definition console_error (line : string) (p : Registry) : Registry :=
  {| recordings := recordings p; storage := storage p;
     errors := errors p ++ [line] |}.

(** In the three mutating operations [setRecordings] follows the awaited
    [setItem] inside the [try] block: when the write rejects, control passes
    to the [catch] block and the state setter is not reached. *)
Definition addRecording (ok : bool) (recording : Recording) (p : Registry) : Registry :=
  let updatedRecordings := recordings p ++ [recording] in
  match AsyncStorage_setItem ok STORAGE_KEY
          (JSON_stringify (encodeRecordings updatedRecordings)) (storage p) with
  | Some disk => setRecordings updatedRecordings (written disk p)
  | None => console_error "Error adding recording:" p
  end.

Definition deleteRecording (ok : bool) (i : string) (p : Registry) : Registry :=
  let updatedRecordings :=
    List.filter (fun recording => negb (String.eqb (id recording) i)) (recordings p) in
  match AsyncStorage_setItem ok STORAGE_KEY
          (JSON_stringify (encodeRecordings updatedRecordings)) (storage p) with
  | Some disk => setRecordings updatedRecordings (written disk p)
  | None => console_error "Error deleting recording:" p
  end.

Definition updateRecording (ok : bool) (i : string) (updates : Partial_Recording)
    (p : Registry) : Registry :=
  let updatedRecordings :=
    List.map (fun recording =>
                if String.eqb (id recording) i then spread recording updates
                else recording)
             (recordings p) in
  match AsyncStorage_setItem ok STORAGE_KEY
          (JSON_stringify (encodeRecordings updatedRecordings)) (storage p) with
  | Some disk => setRecordings updatedRecordings (written disk p)
  | None => console_error "Error updating recording:" p
  end.

Definition getRecording (i : string) (p : Registry) : option Recording :=
  List.find (fun recording => String.eqb (id recording) i) (recordings p).

(** [loadRecordings]; [ok] tells whether [AsyncStorage.getItem] resolves.
    The result is [None] when the stored text parses to a value that the
    embedding cannot hold as [Recording[]] (the code stores whatever
    [JSON.parse] returns). *)
Definition loadRecordings (ok : bool) (p : Registry) : option Registry :=
  match AsyncStorage_getItem ok STORAGE_KEY (storage p) with
  | Some None => Some p
  | Some (Some EmptyString) => Some p
  | Some (Some storedRecordings) =>
      match JSON_parse storedRecordings with
      | SyntaxError => Some (console_error "Error loading recordings:" p)
      | Unmodelled => None
      | Parsed j =>
          match decodeRecordings j with
          | Some l => Some (setRecordings l p)
          | None => None
          end
      end
  | None => Some (console_error "Error loading recordings:" p)
  end.

(** A mutating call of the registry, with the answer of the storage. *)
Inductive op : Type :=
| Add (ok : bool) (recording : Recording)
| Delete (ok : bool) (i : string)
| Update (ok : bool) (i : string) (updates : Partial_Recording).

Definition apply_op (o : op) (p : Registry) : Registry :=
  match o with
  | Add ok recording => addRecording ok recording p
  | Delete ok i => deleteRecording ok i p
  | Update ok i updates => updateRecording ok i updates p
  end.

Definition run_ops (ops : list op) (p : Registry) : Registry :=
  fold_left (fun q o => apply_op o q) ops p.

(** Whether the storage accepted the write of the call. *)
Definition op_ok (o : op) : bool :=
  match o with
  | Add ok _ | Delete ok _ | Update ok _ _ => ok
  end.

Definition add_or_delete (o : op) : bool :=
  match o with
  | Update _ _ _ => false
  | _ => true
  end.

(** The recordings handed to [addRecording] in a sequence of calls. *)
Definition added (ops : list op) : list Recording :=
  flat_map (fun o => match o with Add _ r => [r] | _ => [] end) ops.

(** ** [(tabs)/index.tsx] *)

(** The identity of an [Audio.Recording] or [Audio.Sound] object. *)
Definition handle := nat.

(** An awaited call resolves with a value or rejects with an error. *)
Inductive outcome (A : Type) : Type :=
| Value (a : A)
| Thrown (error : string).
Arguments Value {A} a.
Arguments Thrown {A} error.

(** The calls the screen makes to the platform, with what it hands over
    (and, for [Audio.Recording.createAsync], what comes back).
    [EConsoleLogError error] is
    [console.log(JSON.stringify(error, Object.getOwnPropertyNames(error)))]:
    the text printed holds the engine's stack beside the message, so the
    effect names the error and not the text. *)
Inductive effect : Type :=
| ERequestPermissions
| EAlert (heading message : string)
| ESetAudioMode (allowsRecordingIOS : bool)
| ERecordingCreate (r : outcome handle)
| ERecordingStop (h : handle)
| ERecordingStatus (h : handle)
| ESoundCreate (file : string) (r : outcome handle)
| ESoundPlay (h : handle)
| ESoundPause (h : handle)
| ESoundStatus (h : handle)
| ESoundUnload (h : handle)
| EGetInfo (file : string)
| EFetch (url file : string)
| EConsoleLog (line : string)
| EConsoleError (label error : string)
| EConsoleLogError (error : string).

(** The screen's [useState] cells. *)
Record Screen : Type := {
  recording : option handle;
  recordedURI : option string;
  sound : option handle;
  isPlaying : bool;
  isSending : bool;
  transcription : option json;
  analysis : option json;
  currentRecordingTitle : option string;
  isLoading : bool
}.

Record App : Type := {
  ui : Screen;
  reg : Registry;
  trace : list effect
}.

Definition initial_screen : Screen :=
  {| recording := None; recordedURI := None; sound := None;
     isPlaying := false; isSending := false; transcription := None;
     analysis := None; currentRecordingTitle := None; isLoading := false |}.

Definition initial_app (disk : gmap string string) : App :=
  {| ui := initial_screen; reg := mount disk; trace := [] |}.

(** An [async] function body: a state transformer that may throw. *)
Definition action (A : Type) : Type := App -> outcome A * App.

Definition ret {A} (a : A) : action A := fun s => (Value a, s).

Definition bind {A B} (m : action A) (k : A -> action B) : action B :=
  fun s =>
    match m s with
    | (Value a, s') => k a s'
    | (Thrown e, s') => (Thrown e, s')
    end.

Definition throw {A} (error : string) : action A := fun s => (Thrown error, s).

(** [try { body } catch (error) { handler }] *)
Definition try_catch (body : action unit) (handler : string -> action unit) : action unit :=
  fun s =>
    match body s with
    | (Value a, s') => (Value a, s')
    | (Thrown e, s') => handler e s'
    end.

Declare Scope action_scope.
Delimit Scope action_scope with action.
Notation "x <- m ;; k" := (bind m (fun x => k))
  (at level 100, m at next level, right associativity) : action_scope.
Notation "m ;; k" := (bind m (fun _ => k))
  (at level 100, right associativity) : action_scope.

(** A handler runs to completion; nothing escapes its [catch]. *)
Definition run (m : action unit) (s : App) : App := snd (m s).

Definition emit (e : effect) : action unit :=
  fun s => (Value tt, {| ui := ui s; reg := reg s; trace := trace s ++ [e] |}).

(** An awaited promise that involves no further call. *)
Definition resolve {A} (answer : outcome A) : action A := fun s => (answer, s).

(** An awaited platform call: it is recorded, then it answers. *)
Definition await {A} (e : effect) (answer : outcome A) : action A :=
  fun s => (answer, {| ui := ui s; reg := reg s; trace := trace s ++ [e] |}).

Definition get {A} (f : Screen -> A) : action A := fun s => (Value (f (ui s)), s).

Definition set_ui (f : Screen -> Screen) : action unit :=
  fun s => (Value tt, {| ui := f (ui s); reg := reg s; trace := trace s |}).

Definition on_registry (f : Registry -> Registry) : action unit :=
  fun s => (Value tt, {| ui := ui s; reg := f (reg s); trace := trace s |}).

Definition setRecording (v : option handle) : action unit :=
  set_ui (fun u =>
    {| recording := v; recordedURI := recordedURI u; sound := sound u;
       isPlaying := isPlaying u; isSending := isSending u;
       transcription := transcription u; analysis := analysis u;
       currentRecordingTitle := currentRecordingTitle u; isLoading := isLoading u |}).

Definition setRecordedURI (v : option string) : action unit :=
  set_ui (fun u =>
    {| recording := recording u; recordedURI := v; sound := sound u;
       isPlaying := isPlaying u; isSending := isSending u;
       transcription := transcription u; analysis := analysis u;
       currentRecordingTitle := currentRecordingTitle u; isLoading := isLoading u |}).

Definition setSound (v : option handle) : action unit :=
  set_ui (fun u =>
    {| recording := recording u; recordedURI := recordedURI u; sound := v;
       isPlaying := isPlaying u; isSending := isSending u;
       transcription := transcription u; analysis := analysis u;
       currentRecordingTitle := currentRecordingTitle u; isLoading := isLoading u |}).

Definition setIsPlaying (v : bool) : action unit :=
  set_ui (fun u =>
    {| recording := recording u; recordedURI := recordedURI u; sound := sound u;
       isPlaying := v; isSending := isSending u;
       transcription := transcription u; analysis := analysis u;
       currentRecordingTitle := currentRecordingTitle u; isLoading := isLoading u |}).

Definition setIsSending (v : bool) : action unit :=
  set_ui (fun u =>
    {| recording := recording u; recordedURI := recordedURI u; sound := sound u;
       isPlaying := isPlaying u; isSending := v;
       transcription := transcription u; analysis := analysis u;
       currentRecordingTitle := currentRecordingTitle u; isLoading := isLoading u |}).

Definition setTranscription (v : option json) : action unit :=
  set_ui (fun u =>
    {| recording := recording u; recordedURI := recordedURI u; sound := sound u;
       isPlaying := isPlaying u; isSending := isSending u;
       transcription := v; analysis := analysis u;
       currentRecordingTitle := currentRecordingTitle u; isLoading := isLoading u |}).

Definition setAnalysis (v : option json) : action unit :=
  set_ui (fun u =>
    {| recording := recording u; recordedURI := recordedURI u; sound := sound u;
       isPlaying := isPlaying u; isSending := isSending u;
       transcription := transcription u; analysis := v;
       currentRecordingTitle := currentRecordingTitle u; isLoading := isLoading u |}).

Definition setCurrentRecordingTitle (v : option string) : action unit :=
  set_ui (fun u =>
    {| recording := recording u; recordedURI := recordedURI u; sound := sound u;
       isPlaying := isPlaying u; isSending := isSending u;
       transcription := transcription u; analysis := analysis u;
       currentRecordingTitle := v; isLoading := isLoading u |}).

Definition setIsLoading (v : bool) : action unit :=
  set_ui (fun u =>
    {| recording := recording u; recordedURI := recordedURI u; sound := sound u;
       isPlaying := isPlaying u; isSending := isSending u;
       transcription := transcription u; analysis := analysis u;
       currentRecordingTitle := currentRecordingTitle u; isLoading := v |}).

(** [`${n}`] for an integer [n]. *)
Definition show_int (z : Z) : string := string_of_list_ascii (print_number (of_int z)).

(** *** [startRecording] *)

(** What the platform answers during one call of [startRecording]:
    [granted] is [permission.status === 'granted']. *)
Record StartEnv : Type := {
  granted : outcome bool;
  sound_unloaded : outcome unit;
  audio_mode_set : outcome unit;
  created : outcome handle
}.

Definition startRecording (e : StartEnv) : App -> App :=
  run (try_catch
    (permission <- await ERequestPermissions (granted e) ;;
     if negb permission then
       emit (EAlert "Permission to access microphone is required!" EmptyString)
     else
       setCurrentRecordingTitle None ;;
       setTranscription None ;;
       setAnalysis None ;;
       setRecordedURI None ;;
       s <- get sound ;;
       match s with
       | Some h => await (ESoundUnload h) (sound_unloaded e) ;; setSound None
       | None => ret tt
       end ;;
       setIsPlaying false ;;
       await (ESetAudioMode true) (audio_mode_set e) ;;
       r <- await (ERecordingCreate (created e)) (created e) ;;
       setRecording (Some r))
    (fun error => emit (EConsoleError "Failed to start recording:" error)))%action.

(** *** [stopRecording] *)

(** [millis] is [status.durationMillis] ([None] when undefined); the clock
    is read once for the id and once for the timestamp. *)
Record StopEnv : Type := {
  stopped : outcome unit;
  got_uri : option string;
  status : outcome (option Z);
  now_id : Z;
  now_timestamp : Z;
  locale_string : string;
  saved : bool
}.

Definition stopRecording (e : StopEnv) : App -> App :=
  run (try_catch
    (r <- get recording ;;
     match r with
     | None => ret tt
     | Some h =>
         await (ERecordingStop h) (stopped e) ;;
         let uri := got_uri e in
         setRecordedURI uri ;;
         setRecording None ;;
         millis <- await (ERecordingStatus h) (status e) ;;
         let duration :=
           match millis with
           | Some ms => if ms =? 0 then 0 else div1000 ms
           | None => 0
           end in
         match uri with
         | None | Some EmptyString => ret tt
         | Some uri =>
             let recordingId := ("rec_" ++ show_int (now_id e))%string in
             on_registry
               (addRecording (saved e)
                  {| id := recordingId;
                     uri := uri;
                     duration := duration;
                     timestamp := of_int (now_timestamp e);
                     summary := None;
                     title := ("Recording " ++ locale_string e)%string |})
         end
     end)
    (fun error => emit (EConsoleError "Failed to stop recording:" error)))%action.

(** The record button, [onPress={recording ? stopRecording : startRecording}],
    as the render of the current state binds it. *)
Definition pressRecord (se : StartEnv) (pe : StopEnv) (s : App) : App :=
  match recording (ui s) with
  | Some _ => stopRecording pe s
  | None => startRecording se s
  end.

(** A handler is a closure of the render that created it: what
    [startRecording] reads of [sound], and [stopRecording] of [recording],
    is the value the cell had in that render, and the button's choice between
    the two was made there.  [startRecording], [stopRecording] and
    [pressRecord] above are the handlers of the render of the state they run
    on.  These are the handlers that a render [rendered] created, run on a
    state that has moved on since: a press that comes before the screen has
    rendered again, or while an earlier call is still awaiting. *)
Definition startRecording_on (rendered : Screen) (e : StartEnv) : App -> App :=
  run (try_catch
    (permission <- await ERequestPermissions (granted e) ;;
     if negb permission then
       emit (EAlert "Permission to access microphone is required!" EmptyString)
     else
       setCurrentRecordingTitle None ;;
       setTranscription None ;;
       setAnalysis None ;;
       setRecordedURI None ;;
       match sound rendered with
       | Some h => await (ESoundUnload h) (sound_unloaded e) ;; setSound None
       | None => ret tt
       end ;;
       setIsPlaying false ;;
       await (ESetAudioMode true) (audio_mode_set e) ;;
       r <- await (ERecordingCreate (created e)) (created e) ;;
       setRecording (Some r))
    (fun error => emit (EConsoleError "Failed to start recording:" error)))%action.

Definition stopRecording_on (rendered : Screen) (e : StopEnv) : App -> App :=
  run (try_catch
    (match recording rendered with
     | None => ret tt
     | Some h =>
         await (ERecordingStop h) (stopped e) ;;
         let uri := got_uri e in
         setRecordedURI uri ;;
         setRecording None ;;
         millis <- await (ERecordingStatus h) (status e) ;;
         let duration :=
           match millis with
           | Some ms => if ms =? 0 then 0 else div1000 ms
           | None => 0
           end in
         match uri with
         | None | Some EmptyString => ret tt
         | Some uri =>
             let recordingId := ("rec_" ++ show_int (now_id e))%string in
             on_registry
               (addRecording (saved e)
                  {| id := recordingId;
                     uri := uri;
                     duration := duration;
                     timestamp := of_int (now_timestamp e);
                     summary := None;
                     title := ("Recording " ++ locale_string e)%string |})
         end
     end)
    (fun error => emit (EConsoleError "Failed to stop recording:" error)))%action.

Definition pressRecord_on (rendered : Screen) (se : StartEnv) (pe : StopEnv)
    (s : App) : App :=
  match recording rendered with
  | Some _ => stopRecording_on rendered pe s
  | None => startRecording_on rendered se s
  end.

(** *** [playPauseRecording] *)

(** [sound_status] is the answer of [sound.getStatusAsync()]: [None] when
    the sound is not loaded, else [status.isPlaying]. *)
Record PlayEnv : Type := {
  play_mode_set : outcome unit;
  sound_created : outcome handle;
  play_started : outcome unit;
  sound_status : outcome (option bool);
  sound_paused : outcome unit
}.

(** The branch that toggles a loaded sound has no [try]: a rejection there
    escapes the handler, and the state reached so far is kept. *)
Definition playPauseRecording (e : PlayEnv) : App -> App :=
  run (s <- get sound ;;
       match s with
       | None =>
           u <- get recordedURI ;;
           match u with
           | None | Some EmptyString => ret tt
           | Some recordedURI =>
               try_catch
                 (await (ESetAudioMode false) (play_mode_set e) ;;
                  newSound <- await (ESoundCreate recordedURI (sound_created e))
                                (sound_created e) ;;
                  setSound (Some newSound) ;;
                  await (ESoundPlay newSound) (play_started e) ;;
                  setIsPlaying true)
                 (fun error =>
                    emit (EConsoleError "Playback failed:" error) ;;
                    setIsPlaying false)
           end
       | Some sound =>
           status <- await (ESoundStatus sound) (sound_status e) ;;
           match status with
           | None => ret tt
           | Some true => await (ESoundPause sound) (sound_paused e) ;; setIsPlaying false
           | Some false => await (ESoundPlay sound) (play_started e) ;; setIsPlaying true
           end
       end)%action.

(** The callback given to [newSound.setOnPlaybackStatusUpdate]. *)
Definition onPlaybackStatusUpdate (newSound : handle)
    (isLoaded status_isPlaying didJustFinish : bool) : App -> App :=
  if negb isLoaded then fun s => s
  else
    run (setIsPlaying status_isPlaying ;;
         if didJustFinish then
           emit (ESoundUnload newSound) ;;
           setSound None ;;
           setIsPlaying false
         else ret tt)%action.

(** The cleanup of the effect on [sound]: once the cell holds another
    value, the sound it held before is unloaded. *)
Definition sound_cleanup (before : option handle) (s : App) : App :=
  match before with
  | None => s
  | Some old =>
      match sound (ui s) with
      | Some now => if Nat.eqb old now then s else run (emit (ESoundUnload old)) s
      | None => run (emit (ESoundUnload old)) s
      end
  end.

(** *** [sendAudioForTranscription] *)

(** A [fetch] response: [text] and [json] are what [response.text()] and
    [response.json()] resolve with. *)
Record Response : Type := {
  http_status : Z;
  text_body : outcome string;
  json_body : outcome json
}.

(** [response.ok] *)
Definition response_ok (r : Response) : bool :=
  (200 <=? http_status r) && (http_status r <=? 299).

Definition analyze_url : string := "http://10.10.117.2:8000/analyze_sales_call".

Definition read_prop (data : json) (name : string) : action (option json) :=
  match get_prop data name with
  | Some v => ret v
  | None => throw "TypeError"
  end.

(** The setters are plain writes of the cells.  For [analysis], which the
    screen renders inside a [Text], this is what the code does with the
    strings the cell is declared to hold; a truthy [analysis] of another kind
    makes the render fail, and what the call does then is not described
    here. *)
Definition sendAudioForTranscription (fetched : outcome Response) (uri : string)
  : App -> App :=
  run (busy <- get isLoading ;;
       if busy then ret tt
       else
         try_catch
           (setIsLoading true ;;
            setIsSending true ;;
            setTranscription None ;;
            setAnalysis None ;;
            emit (EConsoleLog "Sending request to analyze recording...") ;;
            response <- await (EFetch analyze_url uri) fetched ;;
            emit (EConsoleLog ("Response status: " ++ show_int (http_status response))) ;;
            (if negb (response_ok response) then
               errorText <- resolve (text_body response) ;;
               emit (EConsoleError "Server error:" errorText) ;;
               throw ("Server error: " ++ show_int (http_status response)
                        ++ " - " ++ errorText)
             else ret tt) ;;
            data <- resolve (json_body response) ;;
            emit (EConsoleLog "Received analysis data") ;;
            t <- read_prop data "transcription" ;;
            (if negb (truthy t) then throw "Invalid response format from server"
             else
               a <- read_prop data "analysis" ;;
               if negb (truthy a) then throw "Invalid response format from server"
               else
                 setTranscription t ;;
                 setAnalysis a))
           (fun error =>
              emit (EConsoleError "Error sending audio:" error) ;;
              emit (EAlert "Error" "Failed to analyze recording. Please try again.")) ;;
         setIsLoading false ;;
         setIsSending false)%action.

(** The body of the effect on the navigation parameters ([None] is a
    parameter that is not there): a recording handed over from the history
    list is selected and sent for analysis at once. *)
Definition onParams (fetched : outcome Response)
    (recordingUri recordingTitle : option string) : App -> App :=
  match recordingUri with
  | None | Some EmptyString => fun s => s
  | Some uri =>
      fun s =>
        sendAudioForTranscription fetched uri
          (run (setRecordedURI (Some uri) ;;
                setCurrentRecordingTitle recordingTitle)%action s)
  end.

(** The two navigation parameters the effect depends on. *)
Definition Params : Type := (option string * option string)%type.

(** The effect with its dependency array
    [[params.recordingUri, params.recordingTitle]]: after a render React runs
    the body only when one of the two values differs from what it was in the
    render before.  [previous] is the pair of the render before; a screen that
    mounts without parameters has run the body on [(None, None)], where it
    does nothing. *)
Definition paramsEffect (fetched : outcome Response) (previous : Params)
    (recordingUri recordingTitle : option string) (s : App) : App :=
  if bool_decide (previous = (recordingUri, recordingTitle)) then s
  else onParams fetched recordingUri recordingTitle s.

(** The send button: shown once there is a recorded URI (and no recording
    was handed over by the router, which only removes presses), disabled
    while sending; [onPress={() => sendAudioForTranscription(recordedURI)}]. *)
Definition pressSend (fetched : outcome Response) (s : App) : App :=
  match recordedURI (ui s) with
  | None | Some EmptyString => s
  | Some uri =>
      if isSending (ui s) then s else sendAudioForTranscription fetched uri s
  end.

(** The play button, shown once there is a recorded URI. *)
Definition pressPlay (e : PlayEnv) (s : App) : App :=
  match recordedURI (ui s) with
  | None | Some EmptyString => s
  | Some _ => playPauseRecording e s
  end.

(** What the user, the router and the player can do to the screen. *)
Inductive event : Type :=
| PressRecord (se : StartEnv) (pe : StopEnv)
| PressPlay (e : PlayEnv)
| PressSend (fetched : outcome Response)
| Navigate (fetched : outcome Response) (recordingUri recordingTitle : option string)
| PlaybackStatus (newSound : handle) (isLoaded status_isPlaying didJustFinish : bool)
| StalePressRecord (rendered : Screen) (se : StartEnv) (pe : StopEnv).

(** [PressRecord] is a press of the record button on the render of the
    current state.  [StalePressRecord rendered] is a press handled by the
    button of the render [rendered] although the state has moved on: a
    second tap while a call of [startRecording] or [stopRecording] was still
    awaiting (the call is taken to have finished first), or before React has
    rendered its last update.  [Navigate] is a render with the given
    navigation parameters; [previous] is the pair of parameters of the render
    before. *)
Definition dispatch (previous : Params) (ev : event) (s : App) : App :=
  match ev with
  | PressRecord se pe => pressRecord se pe s
  | PressPlay e => pressPlay e s
  | PressSend fetched => pressSend fetched s
  | Navigate fetched recordingUri recordingTitle =>
      paramsEffect fetched previous recordingUri recordingTitle s
  | PlaybackStatus newSound isLoaded status_isPlaying didJustFinish =>
      onPlaybackStatusUpdate newSound isLoaded status_isPlaying didJustFinish s
  | StalePressRecord rendered se pe => pressRecord_on rendered se pe s
  end.

(** The navigation parameters of the last render, after an event. *)
Definition params_after (previous : Params) (ev : event) : Params :=
  match ev with
  | Navigate _ recordingUri recordingTitle => (recordingUri, recordingTitle)
  | _ => previous
  end.

(** One event: its handler, then the effect cleanup it triggers. *)
Definition handle_event (previous : Params) (ev : event) (s : App) : App :=
  sound_cleanup (sound (ui s)) (dispatch previous ev s).

(** A run of events over a screen whose last render had the parameters
    [previous].  The handlers are run one after the other, each to its end;
    nothing in the code keeps the record button from being pressed while one
    of its calls is still awaiting, and such a press is a
    [StalePressRecord] after that call. *)
Fixpoint run_from (previous : Params) (evs : list event) (s : App) : App :=
  match evs with
  | [] => s
  | ev :: more => run_from (params_after previous ev) more (handle_event previous ev s)
  end.

(** A run over a screen that mounted without navigation parameters. *)
Definition run_events (evs : list event) (s : App) : App :=
  run_from (None, None) evs s.








(** ** The earlier revision of the screen *)

Module Part001.

Definition transcribe_url : string := "http://192.168.1.176:8000/transcribe".

(** [sendAudioForTranscription] as it was before the registry was added:
    it takes the URI from the state, asks the file system about it, and
    shows the error's message.  [file_exists] is [fileInfo.exists].  The
    revision has no [analysis], [currentRecordingTitle] and [isLoading]
    cells; they are left alone here. *)
Definition sendAudioForTranscription (file_exists : outcome bool)
    (fetched : outcome Response) : App -> App :=
  fun s =>
    match recordedURI (ui s) with
    | None | Some EmptyString => s
    | Some recordedURI =>
        run (try_catch
               (setIsSending true ;;
                setTranscription None ;;
                exists_ <- await (EGetInfo recordedURI) file_exists ;;
                (if negb exists_ then throw "File does not exist" else ret tt) ;;
                res <- await (EFetch transcribe_url recordedURI) fetched ;;
                (if negb (response_ok res) then
                   errText <- resolve (text_body res) ;;
                   emit (EConsoleError
                           ("HTTP error response: " ++ show_int (http_status res))
                           errText) ;;
                   throw ("Server error: " ++ show_int (http_status res)
                            ++ " - " ++ errText)
                 else ret tt) ;;
                data <- resolve (json_body res) ;;
                t <- read_prop data "transcription" ;;
                setTranscription t)
               (fun error =>
                  emit (EConsoleLog "---- Error Object ----") ;;
                  emit (EConsoleLogError error) ;;
                  emit (EConsoleLog "-----------------------") ;;
                  emit (EAlert "Error Sending Audio"
                          (if String.eqb error EmptyString
                           then "Unknown error occurred. See logs for more info."
                           else error))) ;;
             setIsSending false)%action s
    end.

End Part001.

(** ** Auxiliary definitions for the proofs *)

(** Induction over a JSON value and, with it, over its items and members. *)
Section json_induction.
Variable P : json -> Prop.
Hypothesis Hnull : P JNull.
Hypothesis Hbool : forall b, P (JBool b).
Hypothesis Hnum : forall n, P (JNum n).
Hypothesis Hstr : forall s, P (JStr s).
Hypothesis Harr : forall items, Forall P items -> P (JArr items).
Hypothesis Hobj : forall members, Forall (fun m => P (snd m)) members -> P (JObj members).

Fixpoint json_ind (j : json) : P j :=
  match j with
  | JNull => Hnull
  | JBool b => Hbool b
  | JNum n => Hnum n
  | JStr s => Hstr s
  | JArr items =>
      Harr items
        ((fix all (l : list json) : Forall P l :=
            match l with
            | [] => @List.Forall_nil _ P
            | x :: l' => @List.Forall_cons _ P x l' (json_ind x) (all l')
            end) items)
  | JObj members =>
      Hobj members
        ((fix all (l : list (string * json)) : Forall (fun m => P (snd m)) l :=
            match l with
            | [] => @List.Forall_nil _ (fun m => P (snd m))
            | m :: l' =>
                @List.Forall_cons _ (fun m => P (snd m)) m l' (json_ind (snd m)) (all l')
            end) members)
  end.
End json_induction.

(** The tokens of the text that [print] writes. *)
Fixpoint tokens (j : json) : list token :=
  match j with
  | JNull => [TNull]
  | JBool b => [TBool b]
  | JNum n => [TNum n]
  | JStr s => [TStr s]
  | JArr items =>
      TLBracket
        :: match items with
           | [] => []
           | x :: more => tokens x ++ flat_map (fun y => TComma :: tokens y) more
           end
        ++ [TRBracket]
  | JObj members =>
      TLBrace
        :: match members with
           | [] => []
           | (k, x) :: more =>
               (TStr k :: TColon :: tokens x)
                 ++ flat_map
                      (fun m => TComma :: TStr (fst m) :: TColon :: tokens (snd m))
                      more
           end
        ++ [TRBrace]
  end.

(** Every number in the value is in the range the embedding covers. *)
Fixpoint json_ok (j : json) : bool :=
  match j with
  | JNum n => safe_number n
  | JArr items => forallb json_ok items
  | JObj members => forallb (fun m => json_ok (snd m)) members
  | _ => true
  end.

(** What may follow a value in a JSON text. *)
Definition delimited (rest : text) : Prop :=
  rest = [] \/ exists c rest',
    rest = c :: rest' /\ (c = ","%char \/ c = "]"%char \/ c = "}"%char).

(** The scanner state after the integer part [q] of a number. *)
Definition int_state (neg : bool) (q : N) : lstate :=
  if (q =? 0)%N then LZero neg else LInt neg q.

(** [scans g h x]: the scanner turns the text [g x] into the tokens [h x]. *)
Definition scans {A : Type} (g : A -> text) (h : A -> list token) (x : A) : Prop :=
  forall out off rest, delimited rest ->
    lex_run LStart out off (g x ++ rest) = lex_run LStart (rev (h x) ++ out) off rest.

(** The ids of a list of recordings. *)
Definition ids (l : list Recording) : list string := List.map id l.

(** ** Sample data *)

Definition rec1 : Recording :=
  {| id := "r1"; uri := "file:///rec/one.m4a"; duration := div1000 3456;
     timestamp := of_int 1762074900000; summary := None;
     title := "Recording one" |}.

Definition rec2 : Recording :=
  {| id := "r2"; uri := "file:///rec/two.m4a"; duration := 0;
     timestamp := of_int 1762074960000; summary := Some "Ask about budget";
     title := "Recording two" |}.

Definition rec3 : Recording :=
  {| id := "r3"; uri := "file:///rec/three.m4a"; duration := div1000 61500;
     timestamp := of_int 1762075020000; summary := None;
     title := "Recording three" |}.

(** A registry that holds [rec1] and [rec3], in memory and on disk. *)
Definition two_recordings : Registry :=
  addRecording true rec3 (addRecording true rec1 (mount ∅)).

(** A response with status 200 and the given JSON body. *)
Definition ok_response (data : json) : Response :=
  {| http_status := 200; text_body := Thrown "body already read"; json_body := Value data |}.

(** A response with an error status and a plain-text body. *)
Definition error_response (status : Z) (body : string) : Response :=
  {| http_status := status; text_body := Value body;
     json_body := Thrown "SyntaxError: JSON Parse error" |}.

(** Platform answers for a start that succeeds with handle [h], for a
    start whose [createAsync] is refused, and for a stop that succeeds. *)
Definition start_granted (h : handle) : StartEnv :=
  {| granted := Value true; sound_unloaded := Value tt;
     audio_mode_set := Value tt; created := Value h |}.

Definition start_refused : StartEnv :=
  {| granted := Value true; sound_unloaded := Value tt;
     audio_mode_set := Value tt;
     created := Thrown "Only one Recording object can be prepared at a given time." |}.

Definition stop_saved : StopEnv :=
  {| stopped := Value tt; got_uri := Some "file:///rec/new.m4a";
     status := Value (Some 2500); now_id := 1762075080000;
     now_timestamp := 1762075080001; locale_string := "11/2/2026, 9:18:00 AM";
     saved := true |}.

(** A screen that is capturing with handle 1 while a recording handed over
    from the history list has been selected and analysed. *)
Definition capturing : App :=
  run_events
    [PressRecord (start_granted 1%nat) stop_saved;
     Navigate (Value (ok_response (JObj [("transcription", JStr "T"); ("analysis", JStr "A")])))
       (Some "file:///rec/one.m4a") (Some "Recording one")]
    (initial_app ∅).



(** ** Further notions about the registry *)

(** The storage holds the serialisation of the sequence in memory. *)
Definition in_sync (p : Registry) : Prop :=
  storage p !! STORAGE_KEY = Some (JSON_stringify (encodeRecordings (recordings p))).

(** The line a call writes with [console.error] when its save fails. *)
Definition op_label (o : op) : string :=
  match o with
  | Add _ _ => "Error adding recording:"
  | Delete _ _ => "Error deleting recording:"
  | Update _ _ _ => "Error updating recording:"
  end.

Definition failures (ops : list op) : list string :=
  flat_map (fun o => if op_ok o then [] else [op_label o]) ops.

(** A second recording that carries the id of [rec1]. *)
Definition rec1_again : Recording :=
  {| id := "r1"; uri := "file:///rec/one-bis.m4a"; duration := div1000 900;
     timestamp := of_int 1762075140000; summary := None;
     title := "Recording one, again" |}.

(** A registry in which the id [r1] occurs twice. *)
Definition with_duplicate : Registry :=
  addRecording true rec1_again (addRecording true rec2 (addRecording true rec1 (mount ∅))).

(** ** Further notions about the screen *)

(** The requests a trace holds, as (url, file) pairs in order. *)
Definition fetches (t : list effect) : list (string * string) :=
  flat_map (fun e => match e with EFetch url file => [(url, file)] | _ => [] end) t.


(** Every sound that was created is held by the screen or has been handed
    to [unloadAsync]. *)
Definition sound_tracked (s : App) : Prop :=
  forall file h, In (ESoundCreate file (Value h)) (trace s) ->
                 sound (ui s) = Some h \/ In (ESoundUnload h) (trace s).

(** How one event extends the trace, as far as sounds go. *)
Definition sound_disciplined (s s' : App) : Prop :=
  exists more,
    trace s' = trace s ++ more
    /\ (forall file h, In (ESoundCreate file (Value h)) more -> sound (ui s') = Some h)
    /\ (forall h, sound (ui s) = Some h ->
                  sound (ui s') = Some h \/ In (ESoundUnload h) more).

(** Integers that a double holds exactly. *)
Definition safe_int (z : Z) : Prop := Z.abs z < 2 ^ 53.

(** Platform answers for a press of the play button that loads and starts
    a sound with handle [h]. *)
Definition play_loaded (h : handle) : PlayEnv :=
  {| play_mode_set := Value tt; sound_created := Value h; play_started := Value tt;
     sound_status := Value (Some true); sound_paused := Value tt |}.

(** A screen that holds a finished capture and no sound. *)
Definition captured : App :=
  run_events [PressRecord (start_granted 1%nat) stop_saved;
              PressRecord (start_granted 1%nat) stop_saved]
    (initial_app ∅).

(** ** [components/RecordingItem.tsx] *)

(** [String.prototype.trim] on the code units the embedding covers: the
    white space and line terminators below 256 are TAB, LF, VT, FF, CR, SP
    and NBSP. *)
Definition is_white_space (c : ascii) : bool :=
  let n := N_of_ascii c in
  ((n =? 9) || (n =? 10) || (n =? 11) || (n =? 12) || (n =? 13) || (n =? 32)
   || (n =? 160))%N.

Fixpoint trim_start (cs : text) : text :=
  match cs with
  | [] => []
  | c :: more => if is_white_space c then trim_start more else cs
  end.

Definition trim (s : string) : string :=
  string_of_list_ascii (rev (trim_start (rev (trim_start (list_ascii_of_string s))))).

(** The cells of one item of the history list. *)
Record Item : Type := {
  item_sound : option handle;
  item_isPlaying : bool;
  isEditing : bool;
  newTitle : string;
  isAnalyzing : bool
}.

(** What an item does to the outside: a platform call, or
    [router.push({ pathname, params })]. *)
Inductive item_effect : Type :=
| Platform (e : effect)
| RouterPush (pathname recordingId recordingTitle recordingUri : string).

Record ItemWorld : Type := {
  item : Item;
  item_reg : Registry;
  item_trace : list item_effect
}.

(** The item as it is mounted for a recording. *)
Definition initial_item (recording : Recording) : Item :=
  {| item_sound := None; item_isPlaying := false; isEditing := false;
     newTitle := title recording; isAnalyzing := false |}.

Definition setIsEditing (v : bool) (it : Item) : Item :=
  {| item_sound := item_sound it; item_isPlaying := item_isPlaying it;
     isEditing := v; newTitle := newTitle it; isAnalyzing := isAnalyzing it |}.

Definition setNewTitle (v : string) (it : Item) : Item :=
  {| item_sound := item_sound it; item_isPlaying := item_isPlaying it;
     isEditing := isEditing it; newTitle := v; isAnalyzing := isAnalyzing it |}.

Definition item_emit (es : list item_effect) (w : ItemWorld) : ItemWorld :=
  {| item := item w; item_reg := item_reg w; item_trace := item_trace w ++ es |}.

(** [handleRename]; [ok] is the answer of the storage to the save inside
    [updateRecording], which catches its own errors, so that the [catch] of
    [handleRename] is never entered. *)
Definition handleRename (ok : bool) (recording : Recording) (w : ItemWorld) : ItemWorld :=
  if String.eqb (trim (newTitle (item w))) EmptyString then
    item_emit [Platform (EAlert "Error" "Title cannot be empty")] w
  else
    {| item := setIsEditing false (item w);
       item_reg := updateRecording ok (id recording)
                     (only_title (trim (newTitle (item w)))) (item_reg w);
       item_trace := item_trace w |}.

(** [handleDelete]; [unloaded] is the answer of [sound.unloadAsync()]. *)
Definition handleDelete (unloaded : outcome unit) (ok : bool) (recording : Recording)
    (w : ItemWorld) : ItemWorld :=
  let delete (w : ItemWorld) :=
    {| item := item w;
       item_reg := deleteRecording ok (id recording) (item_reg w);
       item_trace := item_trace w |} in
  match item_sound (item w) with
  | Some sound =>
      match unloaded with
      | Value _ => delete (item_emit [Platform (ESoundUnload sound)] w)
      | Thrown error =>
          item_emit [Platform (ESoundUnload sound);
                     Platform (EConsoleError "Error deleting recording:" error)] w
      end
  | None => delete w
  end.



(** An item for [rec1] whose rename dialog holds a padded title. *)
Definition renaming : ItemWorld :=
  {| item := setIsEditing true (setNewTitle "  Budget call  " (initial_item rec1));
     item_reg := two_recordings; item_trace := [] |}.

(** An item for [rec1] that holds a sound. *)
Definition playing_item : ItemWorld :=
  {| item := {| item_sound := Some 9%nat; item_isPlaying := true; isEditing := false;
                newTitle := title rec1; isAnalyzing := false |};
     item_reg := two_recordings; item_trace := [] |}.

(** Close a goal about the sounds a handler loaded, once the trace it
    leaves is explicit. *)
Ltac no_sound_created :=
  first [ exists []; split; [now rewrite app_nil_r|]
        | eexists; split; [rewrite <- ?app_assoc; reflexivity|] ];
  intros file r; cbn; intuition discriminate.

(** * Part II.  Properties *)

(** Unfold the handler combinators and the state projections. *)
Ltac run_handler :=
  cbv beta iota zeta delta
    [run bind try_catch get set_ui emit await resolve ret throw on_registry
     setRecording setRecordedURI setSound setIsPlaying setIsSending setTranscription
     setAnalysis setCurrentRecordingTitle setIsLoading read_prop
     ui reg trace recording recordedURI sound isPlaying isSending transcription
     analysis currentRecordingTitle isLoading fst snd].

(** Exhibit what a handler appended to the trace. *)
Ltac extends_trace :=
  first [ exists []; split; [now rewrite app_nil_r|]
        | eexists; split; [rewrite <- ?app_assoc; reflexivity|] ].


(** ** The JSON codec: [JSON.parse] inverts [JSON.stringify] *)

Lemma lex_run_step st c ts o st' out off cs :
  lex_step st c = Some (ts, o, st') ->
  lex_run st out off (c :: cs) = lex_run st' (ts ++ out) (o || off) cs.
Proof. intros H. simpl. now rewrite H. Qed.

Lemma digit_char_code d : (d < 10)%N -> N_of_ascii (digit_char d) = (48 + d)%N.
Proof. intros Hd. unfold digit_char. apply N_ascii_embedding. lia. Qed.

Lemma lex_step_int_digit neg q d :
  (d < 10)%N ->
  lex_step (LInt neg q) (digit_char d) = Some ([], false, LInt neg (10 * q + d)).
Proof.
  intros Hd. unfold lex_step. rewrite digit_char_code by done.
  replace (is_digit (48 + d)) with true.
  - do 3 f_equal. lia.
  - symmetry. unfold is_digit. apply andb_true_intro. split; apply N.leb_le; lia.
Qed.

Lemma lex_first_digit (neg : bool) q out off rest :
  (0 < q < 10)%N ->
  lex_run (if neg then LMinus else LStart) out off (digit_char q :: rest)
  = lex_run (LInt neg q) out off rest.
Proof.
  intros Hq.
  assert (q = 1 \/ q = 2 \/ q = 3 \/ q = 4 \/ q = 5 \/ q = 6 \/ q = 7 \/ q = 8 \/ q = 9)%N
    as Hcases by lia.
  destruct neg; repeat (destruct Hcases as [-> | Hcases]); try subst q; reflexivity.
Qed.

Lemma lex_rdigits fuel : forall q (neg : bool) out off rest,
  (q < 2 ^ N.of_nat fuel)%N -> q <> 0%N ->
  lex_run (if neg then LMinus else LStart) out off (rev (rdigits fuel q) ++ rest)
  = lex_run (LInt neg q) out off rest.
Proof.
  induction fuel as [|fuel IH]; intros q neg out off rest Hlt Hq.
  - simpl in Hlt. lia.
  - simpl rdigits. destruct (N.eqb_spec (q / 10) 0) as [Hsmall | Hbig].
    + apply N.div_small_iff in Hsmall; [|lia].
      rewrite N.mod_small by done. simpl. apply lex_first_digit. lia.
    + simpl rev. rewrite <- app_assoc. simpl app.
      rewrite IH; [| |done].
      * rewrite (lex_run_step _ _ _ _ _ _ _ _ (lex_step_int_digit neg (q / 10) (q mod 10)
                                                  ltac:(apply N.mod_lt; lia))).
        simpl. f_equal. f_equal. pose proof (N.div_mod q 10). lia.
      * rewrite Nat2N.inj_succ, N.pow_succ_r' in Hlt.
        apply N.Div0.div_lt_upper_bound.
        assert (0 < 2 ^ N.of_nat fuel)%N by (apply N.neq_0_lt_0, N.pow_nonzero; lia). lia.
Qed.

Lemma lex_digits (neg : bool) q out off rest :
  lex_run (if neg then LMinus else LStart) out off (digits q ++ rest)
  = lex_run (int_state neg q) out off rest.
Proof.
  unfold int_state. destruct (N.eqb_spec q 0) as [-> | Hq].
  - destruct neg; reflexivity.
  - unfold digits. apply lex_rdigits; [|done].
    eapply N.lt_le_trans; [apply N.size_gt|].
    apply N.pow_le_mono_r; lia.
Qed.

Lemma lex_dot neg q out off rest :
  lex_run (int_state neg q) out off ("."%char :: rest)
  = lex_run (LDot neg q) out off rest.
Proof.
  unfold int_state. destruct (N.eqb_spec q 0) as [-> | Hq]; reflexivity.
Qed.

Lemma lex_step_dot_digit neg q d :
  (d < 10)%N ->
  lex_step (LDot neg q) (digit_char d) = Some ([], false, LFrac neg q 1 d).
Proof.
  intros Hd. unfold lex_step. rewrite digit_char_code by done.
  replace (is_digit (48 + d)) with true.
  - do 3 f_equal. lia.
  - symmetry. unfold is_digit. apply andb_true_intro. split; apply N.leb_le; lia.
Qed.

Lemma lex_step_frac_digit neg q k f d :
  (d < 10)%N ->
  lex_step (LFrac neg q k f) (digit_char d)
  = Some ([], false, LFrac neg q (S k) (10 * f + d)).
Proof.
  intros Hd. unfold lex_step. rewrite digit_char_code by done.
  replace (is_digit (48 + d)) with true.
  - do 3 f_equal. lia.
  - symmetry. unfold is_digit. apply andb_true_intro. split; apply N.leb_le; lia.
Qed.

Lemma lex_number_end st neg q k f n out off rest :
  st = LFrac neg q k f \/ (st = int_state neg q /\ k = 0%nat /\ f = 0%N) ->
  finish_number neg q k f = (TNum n, false) ->
  delimited rest ->
  lex_run st out off rest = lex_run LStart (TNum n :: out) off rest.
Proof.
  intros Hst Hfin Hrest.
  assert (lex_eof st out off = Some (TNum n :: out, off)
          /\ forall c, c = ","%char \/ c = "]"%char \/ c = "}"%char ->
                       lex_step st c = then_start (finish_number neg q k f) c)
    as [Heof Hstep].
  { destruct Hst as [-> | (-> & -> & ->)].
    - split.
      + unfold lex_eof. now rewrite Hfin.
      + intros c [-> | [-> | ->]]; reflexivity.
    - unfold int_state in *. destruct (N.eqb_spec q 0) as [-> | Hq].
      + split.
        * unfold lex_eof. now rewrite Hfin.
        * intros c [-> | [-> | ->]]; reflexivity.
      + split.
        * unfold lex_eof. now rewrite Hfin.
        * intros c [-> | [-> | ->]]; reflexivity. }
  destruct Hrest as [-> | (c & rest' & -> & Hc)].
  - exact Heof.
  - simpl lex_run at 1. rewrite (Hstep c Hc), Hfin.
    destruct Hc as [-> | [-> | ->]]; reflexivity.
Qed.

Lemma signed_abs n : (if n <? 0 then - Z.of_N (Z.abs_N n) else Z.of_N (Z.abs_N n)) = n.
Proof. rewrite N2Z.inj_abs_N. destruct (Z.ltb_spec n 0); lia. Qed.

Lemma finish_number_exact n q k f :
  safe_number n = true ->
  match k with
  | 0%nat => Some (q * 1000)%N
  | 1%nat => Some (q * 1000 + f * 100)%N
  | 2%nat => Some (q * 1000 + f * 10)%N
  | 3%nat => Some (q * 1000 + f)%N
  | _ => None
  end = Some (Z.abs_N n) ->
  finish_number (n <? 0) q k f = (TNum n, false).
Proof.
  intros Hsafe Hscaled. unfold finish_number. rewrite Hscaled.
  rewrite signed_abs. unfold safe_number in Hsafe. now rewrite Hsafe.
Qed.

Lemma thousandths_digits r :
  (r < 1000)%N ->
  let d1 := (r / 100)%N in
  let d2 := ((r / 10) mod 10)%N in
  let d3 := (r mod 10)%N in
  (r = 100 * d1 + 10 * d2 + d3 /\ d1 < 10 /\ d2 < 10 /\ d3 < 10)%N.
Proof.
  intros Hr d1 d2 d3.
  pose proof (N.div_mod r 10 ltac:(lia)) as H1.
  pose proof (N.div_mod (r / 10) 10 ltac:(lia)) as H2.
  pose proof (N.Div0.div_div r 10 10) as H3. change (10 * 10)%N with 100%N in H3.
  pose proof (N.mod_lt r 10 ltac:(lia)).
  pose proof (N.mod_lt (r / 10) 10 ltac:(lia)).
  subst d1 d2 d3. rewrite <- H3.
  assert (r / 10 / 10 < 10)%N; [|lia].
  apply N.Div0.div_lt_upper_bound, N.Div0.div_lt_upper_bound. lia.
Qed.

Lemma lex_number n out off rest :
  safe_number n = true ->
  delimited rest ->
  lex_run LStart out off (print_number n ++ rest)
  = lex_run LStart (TNum n :: out) off rest.
Proof.
  intros Hsafe Hrest. unfold print_number.
  set (m := Z.abs_N n). set (q := (m / 1000)%N). set (r := (m mod 1000)%N).
  assert (m = 1000 * q + r)%N as Hm by (apply N.div_mod; lia).
  assert (r < 1000)%N as Hr by (apply N.mod_lt; lia).
  rewrite <- !app_assoc.
  transitivity (lex_run (if n <? 0 then LMinus else LStart) out off
                  (digits q ++ (if (r =? 0)%N then [] else "."%char :: frac_digits r) ++ rest)).
  { destruct (n <? 0); reflexivity. }
  rewrite lex_digits.
  destruct (N.eqb_spec r 0) as [Hr0 | Hr0].
  - apply (lex_number_end _ (n <? 0) q 0 0); [right; done| |done].
    apply finish_number_exact; [done|]. f_equal. fold m. lia.
  - simpl app. rewrite lex_dot.
    destruct (thousandths_digits r Hr) as (Hsum & H1 & H2 & H3).
    unfold frac_digits.
    destruct (N.eqb_spec (r mod 10) 0) as [E3 | E3];
      [destruct (N.eqb_spec ((r / 10) mod 10) 0) as [E2 | E2]|]; simpl app.
    + rewrite (lex_run_step _ _ _ _ _ _ _ _ (lex_step_dot_digit (n <? 0) q _ H1)).
      apply (lex_number_end _ (n <? 0) q 1 (r / 100)); [left; done| |done].
      apply finish_number_exact; [done|]. f_equal. fold m. lia.
    + rewrite (lex_run_step _ _ _ _ _ _ _ _ (lex_step_dot_digit (n <? 0) q _ H1)).
      rewrite (lex_run_step _ _ _ _ _ _ _ _ (lex_step_frac_digit (n <? 0) q _ _ _ H2)).
      apply (lex_number_end _ (n <? 0) q 2 (10 * (r / 100) + (r / 10) mod 10));
        [left; done| |done].
      apply finish_number_exact; [done|]. f_equal. fold m. lia.
    + rewrite (lex_run_step _ _ _ _ _ _ _ _ (lex_step_dot_digit (n <? 0) q _ H1)).
      rewrite (lex_run_step _ _ _ _ _ _ _ _ (lex_step_frac_digit (n <? 0) q _ _ _ H2)).
      rewrite (lex_run_step _ _ _ _ _ _ _ _ (lex_step_frac_digit (n <? 0) q _ _ _ H3)).
      apply (lex_number_end _ (n <? 0) q 3
               (10 * (10 * (r / 100) + (r / 10) mod 10) + r mod 10));
        [left; done| |done].
      apply finish_number_exact; [done|]. f_equal. fold m. lia.
Qed.

Lemma lex_escape c acc out off rest :
  lex_run (LStr acc) out off (escape_char c ++ rest)
  = lex_run (LStr (c :: acc)) out off rest.
Proof.
  destruct c as [[|] [|] [|] [|] [|] [|] [|] [|]]; reflexivity.
Qed.

Lemma lex_escaped cs : forall acc out off rest,
  lex_run (LStr acc) out off (flat_map escape_char cs ++ rest)
  = lex_run (LStr (rev cs ++ acc)) out off rest.
Proof.
  induction cs as [|c cs IH]; intros acc out off rest; [reflexivity|].
  simpl flat_map. rewrite <- app_assoc, lex_escape, IH.
  simpl rev. now rewrite <- app_assoc.
Qed.

Lemma lex_quote s out off rest :
  lex_run LStart out off (quote s ++ rest) = lex_run LStart (TStr s :: out) off rest.
Proof.
  unfold quote. simpl app. rewrite <- app_assoc.
  change (lex_run LStart out off ("034"%char :: ?x)) with (lex_run (LStr []) out off x).
  rewrite lex_escaped, app_nil_r.
  change (lex_run (LStr ?a) out off (["034"%char] ++ rest))
    with (lex_run LStart (TStr (string_of_list_ascii (rev a)) :: out) off rest).
  now rewrite rev_involutive, string_of_list_ascii_of_string.
Qed.

Lemma delimited_comma rest : delimited (","%char :: rest).
Proof. right. exists ","%char, rest. auto. Qed.

Lemma delimited_bracket rest : delimited ("]"%char :: rest).
Proof. right. exists "]"%char, rest. auto. Qed.

Lemma delimited_brace rest : delimited ("}"%char :: rest).
Proof. right. exists "}"%char, rest. auto. Qed.

#[local] Hint Resolve delimited_comma delimited_bracket delimited_brace : core.

Section scanning_sequences.
Context {A : Type} (g : A -> text) (h : A -> list token).

Lemma lex_more (more : list A) (close : ascii) :
  Forall (scans g h) more ->
  close = "]"%char \/ close = "}"%char ->
  forall out off rest,
    lex_run LStart out off (flat_map (fun y => ","%char :: g y) more ++ close :: rest)
    = lex_run LStart (rev (flat_map (fun y => TComma :: h y) more) ++ out) off
        (close :: rest).
Proof.
  intros Hall Hclose. induction Hall as [|y more Hy _ IH]; intros out off rest.
  - reflexivity.
  - cbn [flat_map app]. rewrite <- app_assoc.
    change (lex_run LStart out off (","%char :: ?x))
      with (lex_run LStart (TComma :: out) off x).
    rewrite Hy.
    + rewrite IH. f_equal. cbn [rev]. rewrite rev_app_distr.
      now rewrite <- !app_assoc.
    + destruct more; simpl; [destruct Hclose as [-> | ->]|]; auto.
Qed.

Lemma lex_items (l : list A) (close : ascii) :
  Forall (scans g h) l ->
  close = "]"%char \/ close = "}"%char ->
  forall out off rest,
    lex_run LStart out off
      (match l with
       | [] => []
       | x :: more => g x ++ flat_map (fun y => ","%char :: g y) more
       end ++ close :: rest)
    = lex_run LStart
        (rev match l with
             | [] => []
             | x :: more => h x ++ flat_map (fun y => TComma :: h y) more
             end ++ out) off (close :: rest).
Proof.
  intros Hall Hclose out off rest. destruct Hall as [|x more Hx Hmore].
  - reflexivity.
  - rewrite <- app_assoc, Hx.
    + rewrite lex_more by done. f_equal. rewrite rev_app_distr.
      now rewrite <- app_assoc.
    + destruct more; simpl; [destruct Hclose as [-> | ->]|]; auto.
Qed.
End scanning_sequences.

Lemma print_arr items :
  print (JArr items)
  = "["%char
      :: match items with
         | [] => []
         | x :: more => print x ++ flat_map (fun y => ","%char :: print y) more
         end
      ++ ["]"%char].
Proof. reflexivity. Qed.

Lemma tokens_arr items :
  tokens (JArr items)
  = TLBracket
      :: match items with
         | [] => []
         | x :: more => tokens x ++ flat_map (fun y => TComma :: tokens y) more
         end
      ++ [TRBracket].
Proof. reflexivity. Qed.

Lemma print_obj members :
  print (JObj members)
  = "{"%char
      :: match members with
         | [] => []
         | m :: more =>
             (quote (fst m) ++ ":"%char :: print (snd m))
               ++ flat_map
                    (fun m => ","%char :: quote (fst m) ++ ":"%char :: print (snd m))
                    more
         end
      ++ ["}"%char].
Proof. destruct members as [|[k x] more]; reflexivity. Qed.

Lemma tokens_obj members :
  tokens (JObj members)
  = TLBrace
      :: match members with
         | [] => []
         | m :: more =>
             (TStr (fst m) :: TColon :: tokens (snd m))
               ++ flat_map
                    (fun m => TComma :: TStr (fst m) :: TColon :: tokens (snd m))
                    more
         end
      ++ [TRBrace].
Proof. destruct members as [|[k x] more]; reflexivity. Qed.

Lemma lex_wrapped (body : text) (tbody : list token) (o c : ascii) (to tc : token)
    out off rest :
  lex_step LStart o = Some ([to], false, LStart) ->
  lex_step LStart c = Some ([tc], false, LStart) ->
  (forall out',
      lex_run LStart out' off (body ++ c :: rest)
      = lex_run LStart (rev tbody ++ out') off (c :: rest)) ->
  lex_run LStart out off ((o :: body ++ [c]) ++ rest)
  = lex_run LStart (rev (to :: tbody ++ [tc]) ++ out) off rest.
Proof.
  intros Ho Hc Hbody. cbn [app]. rewrite <- app_assoc. cbn [app].
  rewrite (lex_run_step _ _ _ _ _ _ _ _ Ho), Hbody.
  rewrite (lex_run_step _ _ _ _ _ _ _ _ Hc).
  cbn [rev orb app]. rewrite rev_app_distr. cbn [rev app].
  now rewrite <- !app_assoc.
Qed.

Lemma lex_print j :
  json_ok j = true -> scans print tokens j.
Proof.
  induction j as [ |b|n|s|items IH|members IH] using json_ind;
    intros Hok out off rest Hrest.
  - reflexivity.
  - destruct b; reflexivity.
  - apply lex_number; done.
  - apply lex_quote.
  - assert (Forall (scans print tokens) items) as Hall.
    { simpl in Hok. rewrite forallb_forall in Hok.
      rewrite Forall_forall in *. intros x Hx. apply IH; [done|].
      apply Hok. now apply list_elem_of_In. }
    rewrite print_arr, tokens_arr.
    apply lex_wrapped; [reflexivity..|].
    intros out'. apply (lex_items print tokens items "]"%char Hall). auto.
  - assert (Forall (scans (fun m => quote (fst m) ++ ":"%char :: print (snd m))
                      (fun m => TStr (fst m) :: TColon :: tokens (snd m))) members)
      as Hall.
    { simpl in Hok. rewrite forallb_forall in Hok.
      rewrite Forall_forall in *. intros [k x] Hx out' off' rest' Hrest'.
      cbn [fst snd]. rewrite <- app_assoc, lex_quote. cbn [app].
      change (lex_run LStart ?o off' (":"%char :: ?y))
        with (lex_run LStart (TColon :: o) off' y).
      rewrite (IH (k, x) Hx); [|apply (Hok (k, x)); now apply list_elem_of_In|done].
      f_equal. cbn [rev]. now rewrite <- !app_assoc. }
    rewrite print_obj, tokens_obj.
    apply lex_wrapped; [reflexivity..|].
    intros out'.
    apply (lex_items _ _ members "}"%char Hall). auto.
Qed.

Lemma parse_array_first x k ts :
  parse_run (PArrFirst k) (tokens x ++ ts)
  = parse_run (PValue (FArr [] :: k)) (tokens x ++ ts).
Proof.
  destruct x as [ |b|n|s|items|members]; try reflexivity.
Qed.

Lemma parse_array_more more : forall done k ts,
  Forall (fun y => forall k ts,
            parse_run (PValue k) (tokens y ++ ts) = parse_run (feed y k) ts) more ->
  parse_run (PArrNext done k)
    (flat_map (fun y => TComma :: tokens y) more ++ TRBracket :: ts)
  = parse_run (feed (JArr (rev done ++ more)) k) ts.
Proof.
  induction more as [|y more IH]; intros done k ts Hall.
  - simpl. now rewrite app_nil_r.
  - inversion Hall as [|? ? Hy Hmore]; subst.
    cbn [flat_map app]. rewrite <- app_assoc.
    change (parse_run (PArrNext done k) (TComma :: ?r))
      with (parse_run (PValue (FArr done :: k)) r).
    rewrite Hy. cbn [feed]. rewrite IH by done.
    cbn [rev]. now rewrite <- app_assoc.
Qed.

Lemma parse_object_more more : forall done k ts,
  Forall (fun m => forall k ts,
            parse_run (PValue k) (tokens (snd m) ++ ts)
            = parse_run (feed (snd m) k) ts) more ->
  parse_run (PObjNext done k)
    (flat_map (fun m => TComma :: TStr (fst m) :: TColon :: tokens (snd m)) more
       ++ TRBrace :: ts)
  = parse_run (feed (JObj (rev done ++ more)) k) ts.
Proof.
  induction more as [|[key v] more IH]; intros done k ts Hall.
  - simpl. now rewrite app_nil_r.
  - inversion Hall as [|? ? Hy Hmore]; subst.
    cbn [flat_map app fst snd]. rewrite <- app_assoc.
    change (parse_run (PObjNext done k) (TComma :: TStr key :: TColon :: ?r))
      with (parse_run (PValue (FObj done key :: k)) r).
    cbn [snd] in Hy. rewrite Hy. cbn [feed]. rewrite IH by done.
    cbn [rev]. now rewrite <- app_assoc.
Qed.

Lemma parse_tokens j : forall k ts,
  parse_run (PValue k) (tokens j ++ ts) = parse_run (feed j k) ts.
Proof.
  induction j as [ |b|n|s|items IH|members IH] using json_ind; intros k ts;
    try reflexivity.
  - rewrite tokens_arr. cbn [app]. rewrite <- app_assoc. cbn [app].
    change (parse_run (PValue k) (TLBracket :: ?r)) with (parse_run (PArrFirst k) r).
    destruct items as [|x more]; [reflexivity|].
    inversion IH as [|? ? Hx Hmore]; subst.
    rewrite <- app_assoc, parse_array_first, Hx. cbn [feed].
    now rewrite parse_array_more.
  - rewrite tokens_obj. cbn [app]. rewrite <- app_assoc. cbn [app].
    change (parse_run (PValue k) (TLBrace :: ?r)) with (parse_run (PObjFirst k) r).
    destruct members as [|[key v] more]; [reflexivity|].
    inversion IH as [|? ? Hx Hmore]; subst.
    cbn [fst snd app] in *. rewrite <- app_assoc.
    change (parse_run (PObjFirst k) (TStr key :: TColon :: ?r))
      with (parse_run (PValue (FObj [] key :: k)) r).
    rewrite Hx. cbn [feed]. now rewrite parse_object_more.
Qed.

(** [JSON.parse(JSON.stringify(j))] is [j], for every value of the embedding. *)
Lemma JSON_parse_stringify j :
  json_ok j = true -> JSON_parse (JSON_stringify j) = Parsed j.
Proof.
  intros Hok. unfold JSON_parse, JSON_stringify.
  rewrite list_ascii_of_string_of_list_ascii.
  rewrite <- (app_nil_r (print j)), (lex_print j Hok) by (left; done).
  rewrite app_nil_r. cbn [lex_run lex_eof]. rewrite rev_involutive.
  rewrite <- (app_nil_r (tokens j)), parse_tokens. reflexivity.
Qed.

(** ** The recording codec *)

Lemma decode_encode_recording r : decodeRecording (encodeRecording r) = Some r.
Proof. destruct r as [i u d t [s|] ti]; reflexivity. Qed.

Lemma decode_encode_recordings l : decodeRecordings (encodeRecordings l) = Some l.
Proof.
  unfold decodeRecordings, encodeRecordings.
  induction l as [|r l IH]; [reflexivity|].
  cbn [List.map decodeAll]. now rewrite decode_encode_recording, IH.
Qed.

Lemma encode_ok l :
  forallb valid_recording l = true -> json_ok (encodeRecordings l) = true.
Proof.
  intros Hl. cbn [encodeRecordings json_ok].
  rewrite forallb_forall in *. intros j Hj.
  apply in_map_iff in Hj as (r & <- & Hr).
  apply Hl in Hr. unfold valid_recording in Hr.
  apply andb_prop in Hr as [Hd Ht].
  destruct r as [i u d t [s|] ti]; cbn in *; now rewrite Hd, Ht.
Qed.

(** ** The registry *)

(** A provider whose storage holds the serialisation of [l] loads [l]. *)
Lemma load_stored l p :
  forallb valid_recording l = true ->
  storage p !! STORAGE_KEY = Some (JSON_stringify (encodeRecordings l)) ->
  loadRecordings true p = Some (setRecordings l p).
Proof.
  intros Hl Hs. unfold loadRecordings, AsyncStorage_getItem. rewrite Hs.
  rewrite JSON_parse_stringify by now apply encode_ok.
  rewrite decode_encode_recordings.
  now destruct l.
Qed.

Lemma addRecording_recordings ok r p :
  recordings (addRecording ok r p) = if ok then recordings p ++ [r] else recordings p.
Proof. now destruct ok. Qed.

Lemma deleteRecording_recordings ok i p :
  recordings (deleteRecording ok i p)
  = if ok
    then List.filter (fun recording => negb (String.eqb (id recording) i)) (recordings p)
    else recordings p.
Proof. now destruct ok. Qed.

Lemma updateRecording_recordings ok i updates p :
  recordings (updateRecording ok i updates p)
  = if ok
    then List.map (fun recording =>
                     if String.eqb (id recording) i then spread recording updates
                     else recording) (recordings p)
    else recordings p.
Proof. now destruct ok. Qed.

(** A successful call leaves on disk the serialisation of what it leaves in
    memory; a failed one leaves the disk alone. *)
Lemma op_storage o p :
  storage (apply_op o p)
  = if op_ok o
    then <[STORAGE_KEY := JSON_stringify (encodeRecordings (recordings (apply_op o p)))]>
           (storage p)
    else storage p.
Proof. destruct o as [[|] r|[|] i|[|] i updates]; reflexivity. Qed.

Lemma filter_absent i l :
  i ∉ ids l ->
  List.filter (fun recording => negb (String.eqb (id recording) i)) l = l.
Proof.
  induction l as [|r l IH]; intros Hi; [reflexivity|].
  cbn [ids List.map] in Hi. apply not_elem_of_cons in Hi as [Hne Hi].
  cbn [List.filter]. destruct (String.eqb_spec (id r) i) as [E|_]; [congruence|].
  cbn [negb]. now rewrite IH.
Qed.

Lemma update_absent i updates l :
  i ∉ ids l ->
  List.map (fun recording =>
              if String.eqb (id recording) i then spread recording updates
              else recording) l = l.
Proof.
  induction l as [|r l IH]; intros Hi; [reflexivity|].
  cbn [ids List.map] in Hi. apply not_elem_of_cons in Hi as [Hne Hi].
  cbn [List.map]. destruct (String.eqb_spec (id r) i) as [E|_]; [congruence|].
  now rewrite IH.
Qed.

Lemma sublist_filter {A} (f : A -> bool) (l : list A) : List.filter f l `sublist_of` l.
Proof.
  induction l as [|x l IH]; [constructor|].
  cbn [List.filter]. destruct (f x); now constructor.
Qed.

Lemma sublist_map {A B} (f : A -> B) (l1 l2 : list A) :
  l1 `sublist_of` l2 -> List.map f l1 `sublist_of` List.map f l2.
Proof. induction 1; cbn [List.map]; now constructor. Qed.

Lemma ids_app l1 l2 : ids (l1 ++ l2) = ids l1 ++ ids l2.
Proof. apply map_app. Qed.

(** Whatever the storage answers, the ids in the registry after a run of
    add and delete calls are drawn, in order, from the ids it held at the
    start followed by the ids that were added. *)
Lemma run_ops_sublist ops : forall p,
  forallb add_or_delete ops = true ->
  ids (recordings (run_ops ops p)) `sublist_of` ids (recordings p) ++ ids (added ops).
Proof.
  induction ops as [|o ops IH]; intros p Hops.
  - cbn. now rewrite app_nil_r.
  - cbn [forallb] in Hops. apply andb_prop in Hops as [Ho Hops].
    cbn [run_ops fold_left]. fold (run_ops ops (apply_op o p)).
    etrans; [apply IH; done|].
    destruct o as [ok r|ok i|]; [| |discriminate Ho]; cbn [apply_op added flat_map].
    + rewrite addRecording_recordings. destruct ok.
      * rewrite ids_app, ids_app. cbn [ids List.map app]. now rewrite <- app_assoc.
      * rewrite ids_app. apply sublist_app; [done|].
        cbn [ids List.map app]. now constructor.
    + rewrite deleteRecording_recordings. cbn [app].
      apply sublist_app; [|done]. destruct ok; [|done].
      apply sublist_map, sublist_filter.
Qed.

(** After every successful call of the registry, a restart of the provider
    over the storage it left finds the sequence it left in memory. *)
Lemma reload_after_op (o : op) (p : Registry) :
  op_ok o = true ->
  forallb valid_recording (recordings (apply_op o p)) = true ->
  recordings <$> loadRecordings true (mount (storage (apply_op o p)))
  = Some (recordings (apply_op o p)).
Proof.
  intros Hok Hvalid. erewrite load_stored; [reflexivity|exact Hvalid|].
  cbn [mount storage]. rewrite op_storage, Hok. apply lookup_insert_eq.
Qed.

(** ** Claims about the registry *)

(** C1.  From an empty registry, adding three recordings with the ids
    [r1], [r2], [r3] in that order (each save succeeding) makes
    [getRecording "r2"] return the second one; after [deleteRecording "r2"]
    the sequence, in memory and on disk, is the first and the third
    recording in that order, and [getRecording "r2"] returns [undefined]
    ([None]); no call throws. *)
Theorem add_get_delete_scenario (disk : gmap string string) (r1 r2 r3 : Recording) :
  id r1 = "r1" -> id r2 = "r2" -> id r3 = "r3" ->
  let p := addRecording true r3 (addRecording true r2 (addRecording true r1 (mount disk))) in
  getRecording "r2" p = Some r2
  /\ recordings (deleteRecording true "r2" p) = [r1; r3]
  /\ storage (deleteRecording true "r2" p) !! STORAGE_KEY
     = Some (JSON_stringify (encodeRecordings [r1; r3]))
  /\ getRecording "r2" (deleteRecording true "r2" p) = None.
Proof.
  intros H1 H2 H3 p.
  assert (recordings p = [r1; r2; r3]) as Hp by reflexivity.
  assert (recordings (deleteRecording true "r2" p) = [r1; r3]) as Hd.
  { rewrite deleteRecording_recordings, Hp.
    cbn [List.filter]. now rewrite H1, H2, H3. }
  pose proof (op_storage (Delete true "r2") p) as Hdisk.
  cbn [op_ok apply_op] in Hdisk.
  unfold getRecording. rewrite Hdisk, Hd, Hp, lookup_insert_eq. cbn [find].
  rewrite H1, H2, H3. repeat split; reflexivity.
Qed.

Lemma add_get_delete_scenario_witness :
  getRecording "r2"
    (addRecording true rec3 (addRecording true rec2 (addRecording true rec1 (mount ∅))))
  = Some rec2
  /\ recordings
       (deleteRecording true "r2"
          (addRecording true rec3 (addRecording true rec2 (addRecording true rec1 (mount ∅)))))
     = [rec1; rec3]
  /\ getRecording "r2"
       (deleteRecording true "r2"
          (addRecording true rec3 (addRecording true rec2 (addRecording true rec1 (mount ∅)))))
     = None.
Proof.
  destruct (add_get_delete_scenario ∅ rec1 rec2 rec3) as (Hget & Hseq & _ & Hgone);
    [reflexivity..|].
  exact (conj Hget (conj Hseq Hgone)).
Defined.

(** C2, as stated, fails: when [AsyncStorage.setItem] rejects during
    [addRecording], the recording is not in the in-memory collection. *)
Lemma save_failure_does_not_advance :
  recordings (addRecording false rec1 (mount ∅)) <> recordings (mount ∅) ++ [rec1].
Proof. discriminate. Qed.

(** C2, amended.  When persisting fails, [addRecording], [deleteRecording]
    and [updateRecording] leave the in-memory collection and the storage as
    they were and log the error: [setRecordings] comes after the awaited
    [setItem] in the [try] block, so nothing is applied optimistically. *)
Theorem save_failure_keeps_memory (p : Registry) (r : Recording) (i : string)
    (updates : Partial_Recording) :
  (recordings (addRecording false r p) = recordings p
   /\ storage (addRecording false r p) = storage p
   /\ errors (addRecording false r p) = errors p ++ ["Error adding recording:"])
  /\ (recordings (deleteRecording false i p) = recordings p
      /\ storage (deleteRecording false i p) = storage p
      /\ errors (deleteRecording false i p) = errors p ++ ["Error deleting recording:"])
  /\ (recordings (updateRecording false i updates p) = recordings p
      /\ storage (updateRecording false i updates p) = storage p
      /\ errors (updateRecording false i updates p)
         = errors p ++ ["Error updating recording:"]).
Proof. repeat split; reflexivity. Qed.

(** C3.  When exactly one entry has the id, [updateRecording(id, {title: X})]
    (the save succeeding) replaces that entry by one that differs in the
    title only, keeps every other entry and the order, and stores the
    serialisation of the result; when no entry has the id, the call leaves
    the sequence as it is, whatever the updates and the storage's answer. *)
Theorem update_title_frame (p : Registry) (i X : string) :
  (forall before r after,
      recordings p = before ++ r :: after ->
      id r = i -> i ∉ ids before -> i ∉ ids after ->
      let r' := {| id := id r; uri := uri r; duration := duration r;
                   timestamp := timestamp r; summary := summary r; title := X |} in
      recordings (updateRecording true i (only_title X) p) = before ++ r' :: after
      /\ storage (updateRecording true i (only_title X) p) !! STORAGE_KEY
         = Some (JSON_stringify (encodeRecordings (before ++ r' :: after))))
  /\ (forall ok updates,
         i ∉ ids (recordings p) ->
         recordings (updateRecording ok i updates p) = recordings p).
Proof.
  split.
  - intros before r after Hp Hr Hb Ha r'.
    assert (recordings (updateRecording true i (only_title X) p) = before ++ r' :: after)
      as Hnew.
    { rewrite updateRecording_recordings, Hp, map_app.
      cbn [List.map]. rewrite !update_absent by done.
      now rewrite Hr, String.eqb_refl. }
    split; [exact Hnew|].
    pose proof (op_storage (Update true i (only_title X)) p) as Hdisk.
    cbn [op_ok apply_op] in Hdisk. rewrite Hdisk, Hnew. apply lookup_insert_eq.
  - intros ok updates Hi.
    rewrite updateRecording_recordings, update_absent by done. now destruct ok.
Qed.

Lemma update_title_frame_witness :
  recordings (updateRecording true "r3" (only_title "Renamed") two_recordings)
  = [rec1;
     {| id := "r3"; uri := "file:///rec/three.m4a"; duration := div1000 61500;
        timestamp := of_int 1762075020000; summary := None; title := "Renamed" |}]
  /\ recordings (updateRecording true "r2" (only_title "Renamed") two_recordings)
     = [rec1; rec3].
Proof.
  destruct (update_title_frame two_recordings "r3" "Renamed") as [Hhit _].
  destruct (update_title_frame two_recordings "r2" "Renamed") as [_ Hmiss].
  split.
  - apply (Hhit [rec1] rec3 []); [reflexivity | reflexivity | |].
    + apply (bool_decide_unpack _). vm_compute. exact I.
    + apply (bool_decide_unpack _). vm_compute. exact I.
  - apply (Hmiss true (only_title "Renamed")).
    apply (bool_decide_unpack _). vm_compute. exact I.
Defined.

(** C4.  [deleteRecording] with an id that no entry has leaves the
    sequence as it is (same length, contents and order), whatever the storage
    answers, and does not throw; a successful save writes the serialisation
    of that same sequence. *)
Theorem delete_absent (p : Registry) (i : string) (ok : bool) :
  i ∉ ids (recordings p) ->
  recordings (deleteRecording ok i p) = recordings p
  /\ storage (deleteRecording ok i p)
     = if ok
       then <[STORAGE_KEY := JSON_stringify (encodeRecordings (recordings p))]> (storage p)
       else storage p.
Proof.
  intros Hi. pose proof (op_storage (Delete ok i) p) as Hdisk.
  cbn [op_ok apply_op] in Hdisk. rewrite Hdisk.
  rewrite deleteRecording_recordings, filter_absent by done.
  now destruct ok.
Qed.

Lemma delete_absent_witness :
  recordings (deleteRecording true "r2" two_recordings) = [rec1; rec3].
Proof.
  apply (delete_absent two_recordings "r2" true).
  apply (bool_decide_unpack _). vm_compute. exact I.
Defined.

(** C5.  After any sequence of [addRecording] and [deleteRecording] calls
    on a freshly mounted provider, whatever the storage answers to each, the
    ids in the registry are pairwise distinct, provided the recordings handed
    to [addRecording] have pairwise distinct ids. *)
Theorem ids_stay_distinct (disk : gmap string string) (ops : list op) :
  forallb add_or_delete ops = true ->
  NoDup (ids (added ops)) ->
  NoDup (ids (recordings (run_ops ops (mount disk)))).
Proof.
  intros Hops Hadded.
  eapply sublist_NoDup; [|apply run_ops_sublist; done]. exact Hadded.
Qed.

Lemma ids_stay_distinct_witness :
  NoDup (ids (recordings
                (run_ops [Add true rec1; Add false rec2; Delete true "r9";
                          Add true rec3; Delete true "r1"] (mount ∅)))).
Proof.
  apply ids_stay_distinct.
  - reflexivity.
  - apply (bool_decide_unpack _). vm_compute. exact I.
Defined.

(** C6.  Saving a sequence of valid recordings and then loading it yields
    the same sequence, field for field.  The registry saves in
    [addRecording], [deleteRecording] and [updateRecording]: whenever one of
    them, its write succeeding, saves the valid sequence [l] (the empty one
    included, which a deletion or an update can leave), a freshly mounted
    provider that loads from the storage it left holds exactly [l]. *)
Theorem save_then_load (p : Registry) (l : list Recording) :
  forallb valid_recording l = true ->
  (forall r,
      recordings p ++ [r] = l ->
      recordings <$> loadRecordings true (mount (storage (addRecording true r p)))
      = Some l)
  /\ (forall i,
         List.filter (fun recording => negb (String.eqb (id recording) i)) (recordings p)
         = l ->
         recordings <$> loadRecordings true (mount (storage (deleteRecording true i p)))
         = Some l)
  /\ (forall i updates,
         List.map (fun recording =>
                     if String.eqb (id recording) i then spread recording updates
                     else recording) (recordings p) = l ->
         recordings
           <$> loadRecordings true (mount (storage (updateRecording true i updates p)))
         = Some l).
Proof.
  intros Hl. split; [|split].
  - intros r <-. apply (reload_after_op (Add true r) p eq_refl).
    cbn [apply_op]. now rewrite addRecording_recordings.
  - intros i <-. rewrite <- (deleteRecording_recordings true i p).
    apply (reload_after_op (Delete true i) p eq_refl).
    cbn [apply_op]. now rewrite deleteRecording_recordings.
  - intros i updates <-. rewrite <- (updateRecording_recordings true i updates p).
    apply (reload_after_op (Update true i updates) p eq_refl).
    cbn [apply_op]. now rewrite updateRecording_recordings.
Qed.

Lemma save_then_load_witness :
  recordings
    <$> loadRecordings true
          (mount (storage (addRecording true rec3
                             (addRecording true rec2 (addRecording true rec1 (mount ∅))))))
  = Some [rec1; rec2; rec3]
  /\ recordings
       <$> loadRecordings true
             (mount (storage (deleteRecording true "r1" (addRecording true rec1 (mount ∅)))))
     = Some [].
Proof.
  split.
  - destruct (save_then_load
                (addRecording true rec2 (addRecording true rec1 (mount ∅)))
                [rec1; rec2; rec3]) as [Hadd _].
    + vm_compute. reflexivity.
    + apply (Hadd rec3). reflexivity.
  - destruct (save_then_load (addRecording true rec1 (mount ∅)) []) as (_ & Hdelete & _).
    + reflexivity.
    + apply (Hdelete "r1"). reflexivity.
Defined.

(** C10.  On a freshly mounted provider, [loadRecordings] leaves the
    sequence empty and throws nothing when the storage has no entry under
    the key, when the stored text does not parse ([JSON.parse] throws a
    [SyntaxError], which is caught and logged), and when [getItem] itself
    rejects. *)
Theorem load_missing_or_corrupt (disk : gmap string string) :
  (disk !! STORAGE_KEY = None
   \/ exists s, disk !! STORAGE_KEY = Some s /\ JSON_parse s = SyntaxError) ->
  recordings <$> loadRecordings true (mount disk) = Some []
  /\ recordings <$> loadRecordings false (mount disk) = Some [].
Proof.
  intros H. split; [|reflexivity].
  unfold loadRecordings, AsyncStorage_getItem. cbn [mount storage].
  destruct H as [-> | (s & -> & Hs)]; [reflexivity|].
  rewrite Hs. now destruct s.
Qed.

Lemma load_missing_or_corrupt_witness :
  (recordings <$> loadRecordings true (mount ∅) = Some []
   /\ recordings <$> loadRecordings false (mount ∅) = Some [])
  /\ (recordings <$> loadRecordings true (mount {[ STORAGE_KEY := "[{oops" ]}) = Some []
      /\ recordings <$> loadRecordings false (mount {[ STORAGE_KEY := "[{oops" ]})
         = Some []).
Proof.
  split.
  - apply (load_missing_or_corrupt ∅). left. reflexivity.
  - apply (load_missing_or_corrupt {[ STORAGE_KEY := "[{oops" ]}). right.
    exists "[{oops". split; [vm_compute; reflexivity | vm_compute; reflexivity].
Defined.

(** ** Claims about the upload *)

(** C8.  On a screen that is not already uploading,
    [sendAudioForTranscription]
    - given a 200 response whose body is [{transcription: T, analysis: A}]
      (both non-empty) stores [T] and [A] and raises no error;
    - given a response with a non-2xx status and the body text [body]
      raises [Server error: <status> - <body>], which its [catch] logs and
      turns into the alert, and stores nothing;
    - given a 200 response whose body is [{}] raises
      [Invalid response format from server] despite the status.
    In every case the loading and sending flags are cleared again. *)
Theorem upload_contract (s : App) (uri : string) :
  isLoading (ui s) = false ->
  (forall T A : string,
      T <> EmptyString -> A <> EmptyString ->
      let data := JObj [("transcription", JStr T); ("analysis", JStr A)] in
      let s' := sendAudioForTranscription (Value (ok_response data)) uri s in
      transcription (ui s') = Some (JStr T)
      /\ analysis (ui s') = Some (JStr A)
      /\ isLoading (ui s') = false /\ isSending (ui s') = false
      /\ trace s'
         = trace s ++ [EConsoleLog "Sending request to analyze recording...";
                       EFetch analyze_url uri;
                       EConsoleLog "Response status: 200";
                       EConsoleLog "Received analysis data"])
  /\ (forall (status : Z) (body : string),
         response_ok (error_response status body) = false ->
         let s' := sendAudioForTranscription (Value (error_response status body)) uri s in
         transcription (ui s') = None
         /\ analysis (ui s') = None
         /\ isLoading (ui s') = false /\ isSending (ui s') = false
         /\ trace s'
            = trace s ++ [EConsoleLog "Sending request to analyze recording...";
                          EFetch analyze_url uri;
                          EConsoleLog ("Response status: " ++ show_int status);
                          EConsoleError "Server error:" body;
                          EConsoleError "Error sending audio:"
                            ("Server error: " ++ show_int status ++ " - " ++ body);
                          EAlert "Error" "Failed to analyze recording. Please try again."])
  /\ (let s' := sendAudioForTranscription (Value (ok_response (JObj []))) uri s in
      transcription (ui s') = None
      /\ analysis (ui s') = None
      /\ isLoading (ui s') = false /\ isSending (ui s') = false
      /\ trace s'
         = trace s ++ [EConsoleLog "Sending request to analyze recording...";
                       EFetch analyze_url uri;
                       EConsoleLog "Response status: 200";
                       EConsoleLog "Received analysis data";
                       EConsoleError "Error sending audio:"
                         "Invalid response format from server";
                       EAlert "Error" "Failed to analyze recording. Please try again."]).
Proof.
  intros Hl. destruct s as [[rec ruri sn pl sd tr an ti ld] rg tc].
  cbn in Hl. subst ld. split; [|split].
  - intros T A HT HA. apply String.eqb_neq in HT, HA.
    unfold sendAudioForTranscription. run_handler. cbn. rewrite HT, HA. cbn.
    repeat split; rewrite <- ?app_assoc; reflexivity.
  - intros status body Hok.
    unfold sendAudioForTranscription. run_handler.
    cbn [error_response http_status text_body json_body] in *. rewrite Hok. cbn [negb].
    repeat split; rewrite <- ?app_assoc; reflexivity.
  - unfold sendAudioForTranscription. run_handler. cbn.
    repeat split; rewrite <- ?app_assoc; reflexivity.
Qed.

Lemma upload_contract_witness :
  (let s' := sendAudioForTranscription
               (Value (ok_response (JObj [("transcription", JStr "T"); ("analysis", JStr "A")])))
               "file:///rec/one.m4a" (initial_app ∅) in
   transcription (ui s') = Some (JStr "T") /\ analysis (ui s') = Some (JStr "A"))
  /\ (let s' := sendAudioForTranscription (Value (error_response 500 "boom"))
                  "file:///rec/one.m4a" (initial_app ∅) in
      In (EConsoleError "Error sending audio:" "Server error: 500 - boom") (trace s')
      /\ transcription (ui s') = None /\ analysis (ui s') = None)
  /\ (let s' := sendAudioForTranscription (Value (ok_response (JObj [])))
                  "file:///rec/one.m4a" (initial_app ∅) in
      In (EConsoleError "Error sending audio:" "Invalid response format from server")
        (trace s')
      /\ transcription (ui s') = None /\ analysis (ui s') = None).
Proof.
  destruct (upload_contract (initial_app ∅) "file:///rec/one.m4a" eq_refl)
    as (Hgood & Hbad & Hempty).
  repeat apply conj.
  - apply (Hgood "T" "A"); discriminate.
  - apply (Hgood "T" "A"); discriminate.
  - destruct (Hbad 500 "boom" eq_refl) as (_ & _ & _ & _ & ->).
    vm_compute. tauto.
  - apply (Hbad 500 "boom" eq_refl).
  - apply (Hbad 500 "boom" eq_refl).
  - destruct Hempty as (_ & _ & _ & _ & ->). vm_compute. tauto.
  - apply Hempty.
  - apply Hempty.
Defined.

(** C9 does not hold for the screen as it is: [sendAudioForTranscription]
    never asks the file system about the URI.  Whatever the platform
    answers, a call on a screen that is not already uploading issues the
    [fetch] for the URI it was given and makes no [getInfoAsync] call. *)
Theorem upload_skips_file_check (fetched : outcome Response) (uri : string) (s : App) :
  isLoading (ui s) = false ->
  let s' := sendAudioForTranscription fetched uri s in
  exists more,
    trace s'
    = trace s ++ EConsoleLog "Sending request to analyze recording..."
                 :: EFetch analyze_url uri :: more
    /\ forall file, ~ In (EGetInfo file) more.
Proof.
  intros Hl. destruct s as [[rec ruri sn pl sd tr an ti ld] rg tc].
  cbn in Hl. subst ld.
  unfold sendAudioForTranscription. run_handler.
  destruct fetched as [[status body data]|err]; cbn [http_status text_body json_body].
  - destruct (response_ok _); cbn [negb].
    + destruct data as [data|err]; [destruct (get_prop data "transcription") as [t|]|].
      * destruct (truthy t); cbn [negb];
          [destruct (get_prop data "analysis") as [a|]; [destruct (truthy a)|]|];
          cbn [negb]; eexists; (split; [rewrite <- !app_assoc; reflexivity|]);
          intros file; cbn; intuition discriminate.
      * eexists; (split; [rewrite <- !app_assoc; reflexivity|]);
          intros file; cbn; intuition discriminate.
      * eexists; (split; [rewrite <- !app_assoc; reflexivity|]);
          intros file; cbn; intuition discriminate.
    + destruct body as [body|err];
        eexists; (split; [rewrite <- !app_assoc; reflexivity|]);
        intros file; cbn; intuition discriminate.
  - eexists; (split; [rewrite <- !app_assoc; reflexivity|]);
      intros file; cbn; intuition discriminate.
Qed.

Lemma upload_skips_file_check_witness :
  exists more,
    trace (sendAudioForTranscription (Thrown "Network request failed")
             "file:///rec/missing.m4a" (initial_app ∅))
    = trace (initial_app ∅)
        ++ EConsoleLog "Sending request to analyze recording..."
           :: EFetch analyze_url "file:///rec/missing.m4a" :: more
    /\ forall file, ~ In (EGetInfo file) more.
Proof.
  apply (upload_skips_file_check (Thrown "Network request failed")
           "file:///rec/missing.m4a" (initial_app ∅)).
  reflexivity.
Defined.

(** The earlier revision does what C9 says: when the file system reports
    that the file does not exist, no [fetch] is issued and the failure shown
    is [File does not exist]. *)
Lemma earlier_upload_checks_file (fetched : outcome Response) (uri : string) (s : App) :
  uri <> EmptyString ->
  recordedURI (ui s) = Some uri ->
  trace (Part001.sendAudioForTranscription (Value false) fetched s)
  = trace s ++ [EGetInfo uri;
                EConsoleLog "---- Error Object ----";
                EConsoleLogError "File does not exist";
                EConsoleLog "-----------------------";
                EAlert "Error Sending Audio" "File does not exist"].
Proof.
  intros Hne Hu. destruct s as [[rec ruri sn pl sd tr an ti ld] rg tc].
  cbn in Hu. subst ruri. destruct uri as [|c uri]; [done|].
  unfold Part001.sendAudioForTranscription. run_handler. cbn.
  now rewrite <- !app_assoc.
Qed.

(** ** Claims about the capture controller *)





















(** The handlers of the render of the current state are the handlers that
    this render created. *)
Lemma press_on_current se pe s : pressRecord_on (ui s) se pe s = pressRecord se pe s.
Proof.
  destruct s as [[rec ruri sn pl sd tr an ti ld] rg tc].
  unfold pressRecord_on, pressRecord. cbn [ui recording]. destruct rec as [h|].
  - destruct pe as [st u stat n1 n2 loc sv].
    unfold stopRecording_on, stopRecording. run_handler.
    cbn [stopped got_uri status now_id now_timestamp locale_string saved].
    destruct st as [[]|?]; [|reflexivity].
    destruct stat as [millis|?]; [|reflexivity].
    destruct u as [[|c u]|]; reflexivity.
  - destruct se as [g su am cr].
    unfold startRecording_on, startRecording. run_handler.
    cbn [granted sound_unloaded audio_mode_set created].
    destruct g as [[|]|?]; cbn [negb]; [|reflexivity|reflexivity].
    destruct sn as [h1|]; [destruct su as [[]|?]; [|reflexivity]|];
      (destruct am as [[]|?]; [destruct cr as [r|?]|]); reflexivity.
Qed.





(** * Part III.  Further properties of the code *)

(** ** The registry: lookups *)

Lemma find_id_none i l :
  List.find (fun recording => String.eqb (id recording) i) l = None <-> i ∉ ids l.
Proof.
  induction l as [|r l IH]; cbn [List.find ids List.map].
  - split; [intros _; apply not_elem_of_nil|done].
  - rewrite not_elem_of_cons. destruct (String.eqb_spec (id r) i) as [E|E].
    + split; [discriminate|]. intros [Hne _]. congruence.
    + rewrite IH. split; [intros H; split; [congruence|exact H]|tauto].
Qed.

Lemma find_id_some i l r :
  List.find (fun recording => String.eqb (id recording) i) l = Some r ->
  exists before after, l = before ++ r :: after /\ id r = i /\ i ∉ ids before.
Proof.
  induction l as [|x l IH]; cbn [List.find]; [discriminate|].
  destruct (String.eqb_spec (id x) i) as [E|E].
  - intros [= <-]. exists [], l. repeat split; [done|apply not_elem_of_nil].
  - intros H. destruct (IH H) as (before & after & -> & Hid & Hb).
    exists (x :: before), after. repeat split; [done|].
    cbn [ids List.map]. apply not_elem_of_cons. split; [congruence|exact Hb].
Qed.

(** X1.  [getRecording] returns the first entry of the sequence that has
    the id (the entries before it have other ids), and it returns
    [undefined] exactly when no entry has the id. *)
Theorem getRecording_first_match (p : Registry) (i : string) :
  (forall r,
      getRecording i p = Some r ->
      exists before after,
        recordings p = before ++ r :: after /\ id r = i /\ i ∉ ids before)
  /\ (getRecording i p = None <-> i ∉ ids (recordings p)).
Proof.
  split.
  - intros r. apply find_id_some.
  - apply find_id_none.
Qed.

Lemma getRecording_first_match_witness :
  (exists before after,
      recordings with_duplicate = before ++ rec1 :: after
      /\ id rec1 = "r1" /\ "r1" ∉ ids before)
  /\ getRecording "r9" with_duplicate = None.
Proof.
  destruct (getRecording_first_match with_duplicate "r1") as [Hsome _].
  destruct (getRecording_first_match with_duplicate "r9") as [_ Hnone].
  split.
  - apply (Hsome rec1). reflexivity.
  - apply Hnone. apply (bool_decide_unpack _). vm_compute. exact I.
Defined.

(** X2.  After a successful [addRecording], a lookup by id finds what it
    found before; only when it found nothing and the new recording has the
    id does it find the new recording.  So a recording added under an id
    that is already taken cannot be reached through [getRecording]. *)
Theorem add_then_get (p : Registry) (r : Recording) (i : string) :
  getRecording i (addRecording true r p)
  = match getRecording i p with
    | Some x => Some x
    | None => if String.eqb (id r) i then Some r else None
    end.
Proof.
  unfold getRecording. rewrite addRecording_recordings.
  induction (recordings p) as [|x l IH]; cbn [app List.find]; [reflexivity|].
  destruct (String.eqb (id x) i); [reflexivity|exact IH].
Qed.

(** ** The registry: deletion *)

Lemma filter_id_twice i j l :
  List.filter (fun recording => negb (String.eqb (id recording) i))
    (List.filter (fun recording => negb (String.eqb (id recording) j)) l)
  = List.filter (fun recording => negb (String.eqb (id recording) j))
      (List.filter (fun recording => negb (String.eqb (id recording) i)) l).
Proof.
  induction l as [|r l IH]; [reflexivity|]. cbn [List.filter].
  destruct (String.eqb (id r) i) eqn:Ei; destruct (String.eqb (id r) j) eqn:Ej;
    cbn [negb List.filter]; rewrite ?Ei, ?Ej; cbn [negb]; now rewrite IH.
Qed.

Lemma filter_id_again i l :
  List.filter (fun recording => negb (String.eqb (id recording) i))
    (List.filter (fun recording => negb (String.eqb (id recording) i)) l)
  = List.filter (fun recording => negb (String.eqb (id recording) i)) l.
Proof.
  induction l as [|r l IH]; [reflexivity|]. cbn [List.filter].
  destruct (String.eqb (id r) i) eqn:Ei; cbn [negb List.filter];
    rewrite ?Ei; cbn [negb]; now rewrite IH.
Qed.

Lemma find_after_filter i j l :
  j <> i ->
  List.find (fun recording => String.eqb (id recording) j)
    (List.filter (fun recording => negb (String.eqb (id recording) i)) l)
  = List.find (fun recording => String.eqb (id recording) j) l.
Proof.
  intros Hne. induction l as [|r l IH]; [reflexivity|]. cbn [List.filter List.find].
  destruct (String.eqb_spec (id r) i) as [Ei|Ei]; cbn [negb List.find].
  - destruct (String.eqb_spec (id r) j) as [Ej|Ej]; [congruence|exact IH].
  - destruct (String.eqb (id r) j); [reflexivity|exact IH].
Qed.

(** X3.  A successful [deleteRecording] removes every entry that has the
    id, not only the first: afterwards no entry has the id, the lookup of it
    returns [undefined], an entry is present exactly when it was present and
    has another id, and the lookup of every other id is as before. *)
Theorem delete_removes_every_match (p : Registry) (i : string) :
  let q := deleteRecording true i p in
  (i ∉ ids (recordings q))
  /\ getRecording i q = None
  /\ (forall r, In r (recordings q) <-> In r (recordings p) /\ id r <> i)
  /\ (forall j, j <> i -> getRecording j q = getRecording j p).
Proof.
  intros q.
  assert (recordings q
          = List.filter (fun recording => negb (String.eqb (id recording) i)) (recordings p))
    as Hq by apply (deleteRecording_recordings true).
  assert (forall r, In r (recordings q) <-> In r (recordings p) /\ id r <> i) as Hin.
  { intros r. rewrite Hq, filter_In. rewrite negb_true_iff, String.eqb_neq. tauto. }
  assert (i ∉ ids (recordings q)) as Hgone.
  { intros Hi. apply list_elem_of_In, in_map_iff in Hi as (r & Hr & Hrin).
    apply Hin in Hrin. tauto. }
  split; [exact Hgone|]. split; [now apply find_id_none|]. split; [exact Hin|].
  intros j Hj. unfold getRecording. rewrite Hq. now apply find_after_filter.
Qed.

Lemma delete_removes_every_match_witness :
  recordings (deleteRecording true "r1" with_duplicate) = [rec2]
  /\ getRecording "r2" (deleteRecording true "r1" with_duplicate)
     = getRecording "r2" with_duplicate.
Proof.
  destruct (delete_removes_every_match with_duplicate "r1") as (_ & _ & _ & Hother).
  split; [reflexivity|]. apply Hother. discriminate.
Defined.

(** X4.  Successful deletions are idempotent and commute: deleting an id a
    second time, or deleting two ids in the other order, leaves the same
    provider (memory, storage and log). *)
Theorem delete_idempotent_commutes (p : Registry) (i j : string) :
  deleteRecording true i (deleteRecording true i p) = deleteRecording true i p
  /\ deleteRecording true i (deleteRecording true j p)
     = deleteRecording true j (deleteRecording true i p).
Proof.
  destruct p as [l disk errs].
  unfold deleteRecording, AsyncStorage_setItem, setRecordings, written.
  cbn [recordings storage errors]. split.
  - rewrite filter_id_again, insert_insert_eq. reflexivity.
  - rewrite !insert_insert_eq, (filter_id_twice i j). reflexivity.
Qed.

(** ** The registry: memory and storage *)

Lemma op_in_sync o p : in_sync p \/ op_ok o = true -> in_sync (apply_op o p).
Proof.
  unfold in_sync. rewrite op_storage. destruct (op_ok o) eqn:Hok.
  - intros _. apply lookup_insert_eq.
  - intros [Hp | Hno]; [|discriminate].
    destruct o as [ok r|ok i|ok i u]; cbn in Hok; subst ok; exact Hp.
Qed.

Lemma run_ops_in_sync ops : forall p,
  in_sync p \/ existsb op_ok ops = true -> in_sync (run_ops ops p).
Proof.
  induction ops as [|o ops IH]; intros p H.
  - destruct H as [H | H]; [exact H|discriminate].
  - cbn [run_ops fold_left]. apply IH. cbn [existsb] in H.
    destruct (existsb op_ok ops); [now right|left].
    apply op_in_sync. rewrite orb_false_r in H. exact H.
Qed.

(** X5.  Memory and storage stay in step: once the storage holds the
    serialisation of the sequence in memory, it does so after every further
    call of the registry, failed saves included; and a single successful save
    in a run of calls establishes it, whatever the storage held before. *)
Theorem calls_keep_storage_in_step (ops : list op) (p : Registry) :
  in_sync p \/ existsb op_ok ops = true ->
  in_sync (run_ops ops p).
Proof. apply run_ops_in_sync. Qed.

Lemma calls_keep_storage_in_step_witness :
  in_sync (run_ops [Add false rec1; Add true rec2; Delete false "r2";
                    Update false "r2" (only_title "Renamed")]
             (mount {[ STORAGE_KEY := "[{oops" ]})).
Proof.
  apply calls_keep_storage_in_step. right. reflexivity.
Defined.

(** X6.  A restart after any session in which at least one save succeeded
    finds the sequence the session left in memory: loading a freshly mounted
    provider over the storage left by the calls yields exactly that sequence
    (the numbers of its recordings being in range). *)
Theorem restart_after_session (disk : gmap string string) (ops : list op) :
  existsb op_ok ops = true ->
  forallb valid_recording (recordings (run_ops ops (mount disk))) = true ->
  recordings <$> loadRecordings true (mount (storage (run_ops ops (mount disk))))
  = Some (recordings (run_ops ops (mount disk))).
Proof.
  intros Hok Hvalid. erewrite load_stored; [reflexivity|exact Hvalid|].
  cbn [mount storage]. apply run_ops_in_sync. now right.
Qed.

Lemma restart_after_session_witness :
  recordings <$> loadRecordings true
                   (mount (storage (run_ops [Add true rec1; Add false rec2; Add true rec3;
                                             Delete false "r1"] (mount ∅))))
  = Some [rec1; rec3].
Proof.
  apply (restart_after_session ∅ [Add true rec1; Add false rec2; Add true rec3;
                                  Delete false "r1"]).
  - reflexivity.
  - vm_compute. reflexivity.
Defined.

(** X7.  The provider logs one line per failed save, in call order, and
    nothing for a successful one. *)
Theorem failed_saves_are_logged (ops : list op) (p : Registry) :
  errors (run_ops ops p) = errors p ++ failures ops.
Proof.
  revert p. induction ops as [|o ops IH]; intros p.
  - cbn. now rewrite app_nil_r.
  - cbn [run_ops fold_left]. fold (run_ops ops (apply_op o p)). rewrite IH.
    cbn [failures flat_map]. rewrite app_assoc. f_equal.
    destruct o as [[|] r|[|] i|[|] i u]; cbn; now rewrite ?app_nil_r.
Qed.

(** ** The registry: updates *)

(** X8.  [updateRecording] with updates that carry no [id] keeps the
    number of entries and the sequence of their ids, and leaves every entry
    with another id in its place, whatever the storage answers. *)
Theorem update_keeps_ids (p : Registry) (i : string) (updates : Partial_Recording)
    (ok : bool) :
  upd_id updates = None ->
  ids (recordings (updateRecording ok i updates p)) = ids (recordings p)
  /\ forall n r,
       recordings p !! n = Some r -> id r <> i ->
       recordings (updateRecording ok i updates p) !! n = Some r.
Proof.
  intros Hid. rewrite updateRecording_recordings. destruct ok; [|done].
  split.
  - unfold ids. rewrite List.map_map. apply List.map_ext. intros r.
    destruct (String.eqb (id r) i); [|reflexivity].
    unfold spread. cbn [id]. now rewrite Hid.
  - induction (recordings p) as [|x l IH]; intros n r Hn Hr; [done|].
    destruct n as [|n]; cbn in *.
    + injection Hn as ->. apply String.eqb_neq in Hr. now rewrite Hr.
    + now apply IH.
Qed.

Lemma update_keeps_ids_witness :
  ids (recordings (updateRecording true "r1" (only_title "Renamed") with_duplicate))
  = ["r1"; "r2"; "r1"]
  /\ recordings (updateRecording true "r1" (only_title "Renamed") with_duplicate) !! 1%nat
     = Some rec2.
Proof.
  destruct (update_keeps_ids with_duplicate "r1" (only_title "Renamed") true eq_refl)
    as [Hids Hother].
  split; [exact Hids|]. apply Hother; [reflexivity|discriminate].
Defined.

Lemma spread_title_twice r X Y :
  spread (spread r (only_title X)) (only_title Y) = spread r (only_title Y).
Proof. reflexivity. Qed.

(** X9.  Of two successful renames of the same id the last one wins: the
    provider is the same as if only the second had been made. *)
Theorem rename_last_wins (p : Registry) (i X Y : string) :
  updateRecording true i (only_title Y) (updateRecording true i (only_title X) p)
  = updateRecording true i (only_title Y) p.
Proof.
  destruct p as [l disk errs].
  unfold updateRecording, AsyncStorage_setItem, setRecordings, written.
  cbn [recordings storage errors]. rewrite insert_insert_eq.
  assert (List.map (fun recording =>
                      if String.eqb (id recording) i then spread recording (only_title Y)
                      else recording)
            (List.map (fun recording =>
                         if String.eqb (id recording) i then spread recording (only_title X)
                         else recording) l)
          = List.map (fun recording =>
                        if String.eqb (id recording) i then spread recording (only_title Y)
                        else recording) l) as ->; [|reflexivity].
  rewrite List.map_map. apply List.map_ext. intros r.
  destruct (String.eqb (id r) i) eqn:E.
  - change (id (spread r (only_title X))) with (id r). now rewrite E.
  - now rewrite E.
Qed.

(** ** The registry: loading *)

(** X10.  [loadRecordings] never writes to the storage, and loading again
    changes nothing in memory: a second load over the same storage yields the
    sequence the first one yielded. *)
Theorem load_is_read_only (ok : bool) (p q : Registry) :
  loadRecordings ok p = Some q ->
  storage q = storage p
  /\ exists q', loadRecordings ok q = Some q' /\ recordings q' = recordings q.
Proof.
  unfold loadRecordings, AsyncStorage_getItem.
  destruct ok; [|intros [= <-]; split; [reflexivity|]; eauto].
  destruct (storage p !! STORAGE_KEY) as [[|c s]|] eqn:Hs.
  - intros [= <-]. split; [reflexivity|]. rewrite Hs. eauto.
  - destruct (JSON_parse (String c s)) as [| |j] eqn:Hj; [|discriminate|].
    + intros [= <-]. split; [reflexivity|]. cbn [console_error storage].
      rewrite Hs, Hj. eauto.
    + destruct (decodeRecordings j) as [l|] eqn:Hl; [|discriminate].
      intros [= <-]. split; [reflexivity|]. cbn [setRecordings storage].
      rewrite Hs, Hj, Hl. eauto.
  - intros [= <-]. split; [reflexivity|]. rewrite Hs. eauto.
Qed.

Lemma load_is_read_only_witness :
  storage (setRecordings [rec1; rec3] (mount (storage two_recordings)))
  = storage (mount (storage two_recordings))
  /\ exists q',
       loadRecordings true (setRecordings [rec1; rec3] (mount (storage two_recordings)))
       = Some q'
       /\ recordings q' = [rec1; rec3].
Proof.
  apply (load_is_read_only true (mount (storage two_recordings))
           (setRecordings [rec1; rec3] (mount (storage two_recordings)))).
  vm_compute. reflexivity.
Defined.

(** ** The screen: [startRecording] *)

(** X11.  Without the permission [startRecording] changes neither the
    screen nor the registry and asks for no capture: a refusal shows the
    alert, a rejected request is logged. *)
Theorem start_without_permission (e : StartEnv) (s : App) :
  granted e <> Value true ->
  ui (startRecording e s) = ui s
  /\ reg (startRecording e s) = reg s
  /\ trace (startRecording e s)
     = trace s ++ [ERequestPermissions;
                   match granted e with
                   | Value _ => EAlert "Permission to access microphone is required!" EmptyString
                   | Thrown error => EConsoleError "Failed to start recording:" error
                   end].
Proof.
  destruct s as [[rec ruri sn pl sd tr an ti ld] rg tc].
  destruct e as [g su am cr]. cbn [granted]. intros Hg.
  unfold startRecording. run_handler. cbn [granted sound_unloaded audio_mode_set created].
  destruct g as [[|]|err]; [done| |]; cbn [negb]; repeat split;
    rewrite <- ?app_assoc; reflexivity.
Qed.

Lemma start_without_permission_witness :
  ui (startRecording {| granted := Value false; sound_unloaded := Value tt;
                        audio_mode_set := Value tt; created := Value 7%nat |} capturing)
  = ui capturing.
Proof.
  apply (start_without_permission
           {| granted := Value false; sound_unloaded := Value tt;
              audio_mode_set := Value tt; created := Value 7%nat |} capturing).
  discriminate.
Defined.

(** X12.  Once the permission is granted, [startRecording] discards what
    the screen showed of the previous recording (URI, title, transcription
    and analysis) before it asks the platform for anything else, so they are
    gone even when the capture then fails to start; the registry is not
    touched. *)
Theorem start_discards_previous (e : StartEnv) (s : App) :
  granted e = Value true ->
  let s' := startRecording e s in
  recordedURI (ui s') = None
  /\ currentRecordingTitle (ui s') = None
  /\ transcription (ui s') = None
  /\ analysis (ui s') = None
  /\ reg s' = reg s.
Proof.
  destruct s as [[rec ruri sn pl sd tr an ti ld] rg tc].
  destruct e as [g su am cr]. cbn [granted]. intros ->.
  unfold startRecording. run_handler. cbn [granted sound_unloaded audio_mode_set created negb].
  destruct sn as [h|]; [destruct su as [[]|?]|];
    (destruct am as [[]|?]; [destruct cr as [r|?]|]); repeat split.
Qed.

Lemma start_discards_previous_witness :
  recordedURI (ui (startRecording start_refused capturing)) = None
  /\ analysis (ui (startRecording start_refused capturing)) = None.
Proof.
  destruct (start_discards_previous start_refused capturing eq_refl)
    as (Huri & _ & _ & Han & _).
  exact (conj Huri Han).
Defined.

(** X13.  With the permission granted, [startRecording] holds the new
    capture handle exactly when every awaited call resolved (the unloading of
    a held sound, the audio mode, the creation): then no sound is held and
    nothing plays.  When one of them rejects, the handle cell is as before
    and the error is the last thing logged. *)
Theorem start_outcome (e : StartEnv) (s : App) :
  granted e = Value true ->
  let s' := startRecording e s in
  (forall h,
      sound (ui s) = None \/ sound_unloaded e = Value tt ->
      audio_mode_set e = Value tt ->
      created e = Value h ->
      recording (ui s') = Some h /\ sound (ui s') = None /\ isPlaying (ui s') = false)
  /\ (forall error,
         (sound (ui s) <> None /\ sound_unloaded e = Thrown error)
         \/ ((sound (ui s) = None \/ sound_unloaded e = Value tt)
             /\ audio_mode_set e = Thrown error)
         \/ ((sound (ui s) = None \/ sound_unloaded e = Value tt)
             /\ audio_mode_set e = Value tt /\ created e = Thrown error) ->
         recording (ui s') = recording (ui s)
         /\ exists before,
              trace s' = before ++ [EConsoleError "Failed to start recording:" error]).
Proof.
  destruct s as [[rec ruri sn pl sd tr an ti ld] rg tc].
  destruct e as [g su am cr]. cbn [granted sound_unloaded audio_mode_set created ui sound].
  intros ->. unfold startRecording. run_handler.
  cbn [granted sound_unloaded audio_mode_set created negb]. split.
  - intros h Hsound -> ->.
    destruct sn as [h0|]; [destruct Hsound as [?| ->]; [done|]|]; repeat split.
  - intros error H.
    destruct sn as [h0|].
    + destruct su as [[]|err]; [destruct am as [[]|err]; [destruct cr as [r|err]|]|];
        (split; [first [reflexivity | exfalso; intuition congruence]|]);
        try (exfalso; intuition congruence);
        (assert (err = error) as -> by (intuition congruence)); eexists; reflexivity.
    + destruct am as [[]|err]; [destruct cr as [r|err]|];
        (split; [first [reflexivity | exfalso; intuition congruence]|]);
        try (exfalso; intuition congruence);
        (assert (err = error) as -> by (intuition congruence)); eexists; reflexivity.
Qed.

Lemma start_outcome_witness :
  recording (ui (startRecording (start_granted 5%nat) (initial_app ∅))) = Some 5%nat
  /\ recording (ui (startRecording start_refused capturing)) = recording (ui capturing).
Proof.
  destruct (start_outcome (start_granted 5%nat) (initial_app ∅) eq_refl) as [Hgood _].
  destruct (start_outcome start_refused capturing eq_refl) as [_ Hbad].
  split.
  - apply (Hgood 5%nat); [left| |]; reflexivity.
  - apply (Hbad "Only one Recording object can be prepared at a given time.").
    right. right. split; [left; reflexivity|]. split; reflexivity.
Defined.

(** ** The screen: [stopRecording] *)

Lemma stop_appends (e : StopEnv) (s : App) (h : handle) (uri : string) (millis : option Z) :
  recording (ui s) = Some h ->
  stopped e = Value tt ->
  got_uri e = Some uri -> uri <> EmptyString ->
  status e = Value millis ->
  reg (stopRecording e s)
  = addRecording (saved e)
      {| id := "rec_" ++ show_int (now_id e);
         uri := uri;
         duration := div1000 (default 0 millis);
         timestamp := of_int (now_timestamp e);
         summary := None;
         title := "Recording " ++ locale_string e |} (reg s)
  /\ recording (ui (stopRecording e s)) = None
  /\ recordedURI (ui (stopRecording e s)) = Some uri.
Proof.
  destruct s as [[rec ruri sn pl sd tr an ti ld] rg tc].
  destruct e as [st u stat n1 n2 loc sv].
  cbn [ui recording stopped got_uri status]. intros -> -> -> Hne ->.
  destruct uri as [|c uri]; [done|].
  unfold stopRecording. run_handler.
  cbn [stopped got_uri status now_id now_timestamp locale_string saved].
  destruct millis as [ms|]; [destruct (Z.eqb_spec ms 0) as [->|?]|]; repeat split.
Qed.

(** X14.  A stop that goes through (the capture stops, it has a non-empty
    URI, its status is read, the save succeeds) appends exactly one entry to
    the registry: its URI is the capture's, its duration the reported
    milliseconds over 1000 (0 when none are reported), its id [rec_] followed
    by the clock reading, its title [Recording ] followed by the local date;
    the screen lets go of the handle and shows the URI. *)
Theorem stop_adds_recording (e : StopEnv) (s : App) (h : handle) (uri : string)
    (millis : option Z) :
  recording (ui s) = Some h ->
  stopped e = Value tt ->
  got_uri e = Some uri -> uri <> EmptyString ->
  status e = Value millis ->
  saved e = true ->
  let s' := stopRecording e s in
  recordings (reg s')
  = recordings (reg s)
      ++ [{| id := "rec_" ++ show_int (now_id e);
             uri := uri;
             duration := div1000 (default 0 millis);
             timestamp := of_int (now_timestamp e);
             summary := None;
             title := "Recording " ++ locale_string e |}]
  /\ recording (ui s') = None
  /\ recordedURI (ui s') = Some uri.
Proof.
  intros Hh Hst Hu Hne Hm Hsv s'.
  destruct (stop_appends e s h uri millis Hh Hst Hu Hne Hm) as (Hreg & Hrec & Huri).
  subst s'. rewrite Hreg, Hsv, addRecording_recordings. done.
Qed.

Lemma stop_adds_recording_witness :
  recordings (reg (stopRecording stop_saved capturing))
  = [{| id := "rec_1762075080000"; uri := "file:///rec/new.m4a";
        duration := div1000 2500; timestamp := of_int 1762075080001;
        summary := None; title := "Recording 11/2/2026, 9:18:00 AM" |}].
Proof.
  apply (stop_adds_recording stop_saved capturing 1%nat "file:///rec/new.m4a" (Some 2500));
    first [reflexivity | discriminate].
Defined.

(** X15.  A capture can be stopped and still be missing from the history:
    when the capture stops but it has no URI, or reading its status rejects,
    or the save fails, the registry keeps the sequence it had, while the
    screen has let go of the handle and shows whatever URI the capture
    gave. *)
Theorem stop_without_entry (e : StopEnv) (s : App) (h : handle) :
  recording (ui s) = Some h ->
  stopped e = Value tt ->
  got_uri e = None \/ got_uri e = Some EmptyString
  \/ (exists error, status e = Thrown error) \/ saved e = false ->
  let s' := stopRecording e s in
  recordings (reg s') = recordings (reg s)
  /\ recording (ui s') = None
  /\ recordedURI (ui s') = got_uri e.
Proof.
  destruct s as [[rec ruri sn pl sd tr an ti ld] rg tc].
  destruct e as [st u stat n1 n2 loc sv].
  cbn [ui recording stopped got_uri status saved]. intros -> -> H.
  unfold stopRecording. run_handler.
  cbn [stopped got_uri status now_id now_timestamp locale_string saved].
  destruct stat as [millis|err]; [|done].
  destruct u as [[|c u]|]; [done| |done].
  destruct H as [H|[H|[[err H]|H]]]; try discriminate. subst sv.
  repeat split.
Qed.

Lemma stop_without_entry_witness :
  recordings
    (reg (stopRecording
            {| stopped := Value tt; got_uri := Some "file:///rec/new.m4a";
               status := Thrown "status unavailable"; now_id := 1762075080000;
               now_timestamp := 1762075080001; locale_string := "11/2/2026, 9:18:00 AM";
               saved := true |} capturing))
  = recordings (reg capturing).
Proof.
  apply (stop_without_entry
           {| stopped := Value tt; got_uri := Some "file:///rec/new.m4a";
              status := Thrown "status unavailable"; now_id := 1762075080000;
              now_timestamp := 1762075080001; locale_string := "11/2/2026, 9:18:00 AM";
              saved := true |} capturing 1%nat); [reflexivity..|].
  right. right. left. eexists. reflexivity.
Defined.

(** X16.  [stopRecording] changes neither the screen nor the registry when
    no capture is held or when [stopAndUnloadAsync] rejects; in the second
    case the capture stays held and the error is logged. *)
Theorem stop_changes_nothing (e : StopEnv) (s : App) :
  recording (ui s) = None \/ (exists error, stopped e = Thrown error) ->
  ui (stopRecording e s) = ui s
  /\ reg (stopRecording e s) = reg s
  /\ (recording (ui s) = None -> trace (stopRecording e s) = trace s)
  /\ (forall h error,
         recording (ui s) = Some h -> stopped e = Thrown error ->
         trace (stopRecording e s)
         = trace s ++ [ERecordingStop h; EConsoleError "Failed to stop recording:" error]).
Proof.
  destruct s as [[rec ruri sn pl sd tr an ti ld] rg tc].
  destruct e as [st u stat n1 n2 loc sv].
  cbn [ui recording stopped]. intros H.
  unfold stopRecording. run_handler.
  cbn [stopped got_uri status now_id now_timestamp locale_string saved].
  destruct rec as [h0|].
  - destruct H as [H|[err ->]]; [discriminate|]. repeat split; [done|].
    intros h error [= <-] [= <-]. now rewrite <- app_assoc.
  - repeat split. intros h error; discriminate.
Qed.

Lemma stop_changes_nothing_witness :
  ui (stopRecording stop_saved (initial_app ∅)) = ui (initial_app ∅)
  /\ reg (stopRecording stop_saved (initial_app ∅)) = reg (initial_app ∅).
Proof.
  destruct (stop_changes_nothing stop_saved (initial_app ∅)) as (Hui & Hreg & _).
  - left. reflexivity.
  - exact (conj Hui Hreg).
Defined.

(** ** The screen: the ids it gives to recordings *)

Lemma print_number_inj a b :
  safe_number a = true -> safe_number b = true ->
  print_number a = print_number b -> a = b.
Proof.
  intros Ha Hb Heq.
  pose proof (lex_number a [] false [] Ha (or_introl eq_refl)) as Hla.
  pose proof (lex_number b [] false [] Hb (or_introl eq_refl)) as Hlb.
  rewrite Heq, Hlb in Hla. cbn in Hla. congruence.
Qed.

Lemma safe_of_int z : safe_int z -> safe_number (of_int z) = true.
Proof.
  unfold safe_int, safe_number, safe_magnitude, of_int. intros Hz.
  apply orb_true_intro. right. apply andb_true_intro.
  assert (Z.abs_N (z * 1000) = (Z.abs_N z * 1000)%N) as -> by (rewrite Zabs2N.inj_mul; reflexivity).
  rewrite N.Div0.mod_mul, N.div_mul by lia. split; [reflexivity|].
  apply N.ltb_lt. lia.
Qed.

Lemma show_int_inj a b : safe_int a -> safe_int b -> show_int a = show_int b -> a = b.
Proof.
  intros Ha Hb Heq. unfold show_int in Heq.
  apply (f_equal list_ascii_of_string) in Heq.
  rewrite !list_ascii_of_string_of_list_ascii in Heq.
  apply print_number_inj in Heq; try now apply safe_of_int.
  unfold of_int in Heq. lia.
Qed.

(** X17.  The ids [stopRecording] gives are as distinct as the clock
    readings they are made from: two stops that go through at different
    readings of [Date.now()] (integers a double holds exactly) append entries
    with different ids. *)
Theorem capture_ids_follow_the_clock (e1 e2 : StopEnv) (s1 s2 : App) (h1 h2 : handle)
    (uri1 uri2 : string) (millis1 millis2 : option Z) :
  recording (ui s1) = Some h1 -> recording (ui s2) = Some h2 ->
  stopped e1 = Value tt -> stopped e2 = Value tt ->
  got_uri e1 = Some uri1 -> uri1 <> EmptyString ->
  got_uri e2 = Some uri2 -> uri2 <> EmptyString ->
  status e1 = Value millis1 -> status e2 = Value millis2 ->
  saved e1 = true -> saved e2 = true ->
  safe_int (now_id e1) -> safe_int (now_id e2) ->
  now_id e1 <> now_id e2 ->
  exists r1 r2,
    recordings (reg (stopRecording e1 s1)) = recordings (reg s1) ++ [r1]
    /\ recordings (reg (stopRecording e2 s2)) = recordings (reg s2) ++ [r2]
    /\ id r1 <> id r2.
Proof.
  intros Hh1 Hh2 Hst1 Hst2 Hu1 Hn1 Hu2 Hn2 Hm1 Hm2 Hsv1 Hsv2 Hs1 Hs2 Hclock.
  destruct (stop_appends e1 s1 h1 uri1 millis1 Hh1 Hst1 Hu1 Hn1 Hm1) as (Hr1 & _).
  destruct (stop_appends e2 s2 h2 uri2 millis2 Hh2 Hst2 Hu2 Hn2 Hm2) as (Hr2 & _).
  rewrite Hr1, Hr2, Hsv1, Hsv2, !addRecording_recordings.
  do 2 eexists. split; [reflexivity|]. split; [reflexivity|].
  cbn [id]. intros Heq. apply Hclock.
  apply (show_int_inj _ _ Hs1 Hs2).
  now injection Heq.
Qed.

Lemma capture_ids_follow_the_clock_witness :
  exists r1 r2,
    recordings (reg (stopRecording stop_saved capturing))
    = recordings (reg capturing) ++ [r1]
    /\ recordings
         (reg (stopRecording
                 {| stopped := Value tt; got_uri := Some "file:///rec/next.m4a";
                    status := Value None; now_id := 1762075080001;
                    now_timestamp := 1762075080001;
                    locale_string := "11/2/2026, 9:18:00 AM"; saved := true |}
                 capturing))
       = recordings (reg capturing) ++ [r2]
    /\ id r1 <> id r2.
Proof.
  apply (capture_ids_follow_the_clock stop_saved
           {| stopped := Value tt; got_uri := Some "file:///rec/next.m4a";
              status := Value None; now_id := 1762075080001;
              now_timestamp := 1762075080001;
              locale_string := "11/2/2026, 9:18:00 AM"; saved := true |}
           capturing capturing 1%nat 1%nat "file:///rec/new.m4a" "file:///rec/next.m4a"
           (Some 2500) None);
    first [reflexivity | discriminate | (unfold safe_int; cbn; lia)].
Defined.

(** ** The screen: [sendAudioForTranscription] *)

Lemma fetches_app t1 t2 : fetches (t1 ++ t2) = fetches t1 ++ fetches t2.
Proof. apply flat_map_app. Qed.

Lemma send_keeps_cells (fetched : outcome Response) (uri : string) (s : App) :
  let s' := sendAudioForTranscription fetched uri s in
  recording (ui s') = recording (ui s)
  /\ recordedURI (ui s') = recordedURI (ui s)
  /\ sound (ui s') = sound (ui s)
  /\ isPlaying (ui s') = isPlaying (ui s)
  /\ currentRecordingTitle (ui s') = currentRecordingTitle (ui s)
  /\ reg s' = reg s
  /\ (isLoading (ui s) = false ->
      isLoading (ui s') = false /\ isSending (ui s') = false).
Proof.
  destruct s as [[rec ruri sn pl sd tr an ti ld] rg tc].
  unfold sendAudioForTranscription. run_handler.
  destruct ld; [repeat split; discriminate|].
  destruct fetched as [[status body data]|?]; cbn [http_status text_body json_body];
    [|repeat split].
  destruct (response_ok _); cbn [negb]; [|destruct body as [body|?]; repeat split].
  destruct data as [data|?]; [|repeat split].
  destruct (get_prop data "transcription") as [t|]; [|repeat split].
  destruct (truthy t); cbn [negb]; [|repeat split].
  destruct (get_prop data "analysis") as [a|]; [|repeat split].
  destruct (truthy a); cbn [negb]; repeat split.
Qed.

(** X18.  An upload touches only its own cells: whatever the server
    answers, a call leaves the capture handle, the recorded URI, the sound,
    the play flag, the title and the registry as they were, and a call that
    was not refused for being busy ends with the loading and sending flags
    cleared. *)
Theorem send_frame (fetched : outcome Response) (uri : string) (s : App) :
  let s' := sendAudioForTranscription fetched uri s in
  recording (ui s') = recording (ui s)
  /\ recordedURI (ui s') = recordedURI (ui s)
  /\ sound (ui s') = sound (ui s)
  /\ isPlaying (ui s') = isPlaying (ui s)
  /\ currentRecordingTitle (ui s') = currentRecordingTitle (ui s)
  /\ reg s' = reg s
  /\ (isLoading (ui s) = false ->
      isLoading (ui s') = false /\ isSending (ui s') = false).
Proof. apply send_keeps_cells. Qed.

Lemma send_frame_witness :
  isLoading (ui (sendAudioForTranscription (Thrown "Network request failed")
                   "file:///rec/one.m4a" capturing)) = false
  /\ isSending (ui (sendAudioForTranscription (Thrown "Network request failed")
                      "file:///rec/one.m4a" capturing)) = false.
Proof.
  apply (send_frame (Thrown "Network request failed") "file:///rec/one.m4a" capturing).
  reflexivity.
Defined.



Lemma send_fetches_once (fetched : outcome Response) (uri : string) (s : App) :
  fetches (trace (sendAudioForTranscription fetched uri s))
  = fetches (trace s) ++ (if isLoading (ui s) then [] else [(analyze_url, uri)]).
Proof.
  destruct s as [[rec ruri sn pl sd tr an ti ld] rg tc].
  unfold sendAudioForTranscription. run_handler.
  destruct ld; [now rewrite app_nil_r|].
  destruct fetched as [[status body data]|?]; cbn [http_status text_body json_body];
    [|rewrite !fetches_app; cbn; now rewrite ?app_nil_r].
  destruct (response_ok _); cbn [negb];
    [|destruct body as [body|?]; rewrite !fetches_app; cbn; now rewrite ?app_nil_r].
  destruct data as [data|?]; [|rewrite !fetches_app; cbn; now rewrite ?app_nil_r].
  destruct (get_prop data "transcription") as [t|];
    [|rewrite !fetches_app; cbn; now rewrite ?app_nil_r].
  destruct (truthy t); cbn [negb]; [|rewrite !fetches_app; cbn; now rewrite ?app_nil_r].
  destruct (get_prop data "analysis") as [a|];
    [|rewrite !fetches_app; cbn; now rewrite ?app_nil_r].
  destruct (truthy a); cbn [negb]; rewrite !fetches_app; cbn; now rewrite ?app_nil_r.
Qed.

(** X20.  One call, at most one request: [sendAudioForTranscription]
    posts the URI it was given to the analysis endpoint exactly once, with no
    retry whatever the answer, and not at all while an upload is loading. *)
Theorem send_single_fetch (fetched : outcome Response) (uri : string) (s : App) :
  fetches (trace (sendAudioForTranscription fetched uri s))
  = fetches (trace s) ++ (if isLoading (ui s) then [] else [(analyze_url, uri)]).
Proof. apply send_fetches_once. Qed.

(** ** The screen: a recording handed over by the router *)

Lemma params_body_selects (fetched : outcome Response) (uri : string)
    (recordingTitle : option string) (s : App) :
  uri <> EmptyString ->
  let s' := onParams fetched (Some uri) recordingTitle s in
  recordedURI (ui s') = Some uri
  /\ currentRecordingTitle (ui s') = recordingTitle
  /\ fetches (trace s')
     = fetches (trace s) ++ (if isLoading (ui s) then [] else [(analyze_url, uri)]).
Proof.
  intros Hne s'. subst s'. destruct uri as [|c uri]; [done|]. cbn [onParams].
  match goal with
  | |- context [sendAudioForTranscription ?f ?u ?b] =>
      pose proof (send_keeps_cells f u b) as (_ & Huri & _ & _ & Htitle & _);
      pose proof (send_fetches_once f u b) as Hfetch
  end.
  cbv zeta in Huri, Htitle. rewrite Huri, Htitle, Hfetch.
  destruct s as [[rec ruri sn pl sd tr an ti ld] rg tc]. repeat split.
Qed.

(** X21.  The effect on the navigation parameters runs only when one of
    them has changed since the render before.  When they change to a
    recording with a non-empty URI, the screen selects that URI and shows the
    title that came with it, and it posts that URI once, unless an upload is
    loading: then the selection changes all the same and no request is made
    for it.  When both are what they were (the same recording handed over
    again, whatever the screen shows by then) or there is no URI, nothing is
    selected and nothing is posted. *)
Theorem params_select_and_send (fetched : outcome Response) (previous : Params)
    (recordingUri recordingTitle : option string) (s : App) :
  (forall uri,
      previous <> (recordingUri, recordingTitle) ->
      recordingUri = Some uri -> uri <> EmptyString ->
      let s' := paramsEffect fetched previous recordingUri recordingTitle s in
      recordedURI (ui s') = Some uri
      /\ currentRecordingTitle (ui s') = recordingTitle
      /\ fetches (trace s')
         = fetches (trace s) ++ (if isLoading (ui s) then [] else [(analyze_url, uri)]))
  /\ (previous = (recordingUri, recordingTitle)
      \/ recordingUri = None \/ recordingUri = Some EmptyString ->
      paramsEffect fetched previous recordingUri recordingTitle s = s).
Proof.
  unfold paramsEffect. split.
  - intros uri Hchanged -> Hne. rewrite bool_decide_eq_false_2 by exact Hchanged.
    now apply params_body_selects.
  - intros [Hsame | Hnone].
    + now rewrite bool_decide_eq_true_2 by exact Hsame.
    + destruct (bool_decide _); [reflexivity|].
      destruct Hnone as [-> | ->]; reflexivity.
Qed.

Lemma params_select_and_send_witness :
  recordedURI (ui (paramsEffect (Value (error_response 503 "busy"))
                     (Some "file:///rec/one.m4a", Some "Recording one")
                     (Some "file:///rec/three.m4a") (Some "Recording three") capturing))
  = Some "file:///rec/three.m4a"
  /\ recordedURI (ui (pressRecord (start_granted 2%nat) stop_saved
                        (pressRecord (start_granted 2%nat) stop_saved capturing)))
     = None
  /\ paramsEffect (Value (error_response 503 "busy"))
       (Some "file:///rec/one.m4a", Some "Recording one")
       (Some "file:///rec/one.m4a") (Some "Recording one")
       (pressRecord (start_granted 2%nat) stop_saved
          (pressRecord (start_granted 2%nat) stop_saved capturing))
     = pressRecord (start_granted 2%nat) stop_saved
         (pressRecord (start_granted 2%nat) stop_saved capturing).
Proof.
  destruct (params_select_and_send (Value (error_response 503 "busy"))
              (Some "file:///rec/one.m4a", Some "Recording one")
              (Some "file:///rec/three.m4a") (Some "Recording three") capturing)
    as [Hsel _].
  destruct (params_select_and_send (Value (error_response 503 "busy"))
              (Some "file:///rec/one.m4a", Some "Recording one")
              (Some "file:///rec/one.m4a") (Some "Recording one")
              (pressRecord (start_granted 2%nat) stop_saved
                 (pressRecord (start_granted 2%nat) stop_saved capturing)))
    as [_ Hsame].
  split; [|split].
  - apply (Hsel "file:///rec/three.m4a"); [discriminate|reflexivity|discriminate].
  - reflexivity.
  - apply Hsame. left. reflexivity.
Defined.

(** ** The screen: playback *)

Lemma start_loads_no_sound e s :
  exists more,
    trace (startRecording e s) = trace s ++ more
    /\ forall file r, ~ In (ESoundCreate file r) more.
Proof.
  destruct s as [[rec ruri sn pl sd tr an ti ld] rg tc].
  destruct e as [g su am cr].
  unfold startRecording. run_handler.
  cbn [granted sound_unloaded audio_mode_set created].
  destruct g as [[|]|?]; cbn [negb]; [| no_sound_created | no_sound_created].
  destruct sn as [h1|]; [destruct su as [[]|?]; [|no_sound_created]|];
    (destruct am as [[]|?]; [destruct cr as [r0|?]|]); no_sound_created.
Qed.

Lemma stop_loads_no_sound e s :
  exists more,
    trace (stopRecording e s) = trace s ++ more
    /\ forall file r, ~ In (ESoundCreate file r) more.
Proof.
  destruct s as [[rec ruri sn pl sd tr an ti ld] rg tc].
  destruct e as [st u stat n1 n2 loc sv].
  unfold stopRecording. run_handler.
  cbn [stopped got_uri status now_id now_timestamp locale_string saved].
  destruct rec as [h0|]; [|no_sound_created].
  destruct st as [[]|?]; [|no_sound_created].
  destruct stat as [millis|?]; [|no_sound_created].
  destruct u as [[|c u]|]; no_sound_created.
Qed.

Lemma start_on_loads_no_sound rendered e s :
  exists more,
    trace (startRecording_on rendered e s) = trace s ++ more
    /\ forall file r, ~ In (ESoundCreate file r) more.
Proof.
  destruct s as [[rec ruri sn pl sd tr an ti ld] rg tc].
  destruct e as [g su am cr].
  destruct rendered as [rec' ruri' sn' pl' sd' tr' an' ti' ld'].
  unfold startRecording_on. run_handler.
  cbn [granted sound_unloaded audio_mode_set created].
  destruct g as [[|]|?]; cbn [negb]; [| no_sound_created | no_sound_created].
  destruct sn' as [h1|]; [destruct su as [[]|?]; [|no_sound_created]|];
    (destruct am as [[]|?]; [destruct cr as [r0|?]|]); no_sound_created.
Qed.

Lemma stop_on_loads_no_sound rendered e s :
  exists more,
    trace (stopRecording_on rendered e s) = trace s ++ more
    /\ forall file r, ~ In (ESoundCreate file r) more.
Proof.
  destruct s as [[rec ruri sn pl sd tr an ti ld] rg tc].
  destruct e as [st u stat n1 n2 loc sv].
  destruct rendered as [rec' ruri' sn' pl' sd' tr' an' ti' ld'].
  unfold stopRecording_on. run_handler.
  cbn [stopped got_uri status now_id now_timestamp locale_string saved].
  destruct rec' as [h0|]; [|no_sound_created].
  destruct st as [[]|?]; [|no_sound_created].
  destruct stat as [millis|?]; [|no_sound_created].
  destruct u as [[|c u]|]; no_sound_created.
Qed.

Lemma send_loads_no_sound fetched uri s :
  exists more,
    trace (sendAudioForTranscription fetched uri s) = trace s ++ more
    /\ forall file r, ~ In (ESoundCreate file r) more.
Proof.
  destruct s as [[rec ruri sn pl sd tr an ti ld] rg tc].
  unfold sendAudioForTranscription. run_handler.
  destruct ld; [no_sound_created|].
  destruct fetched as [[status body data]|?]; cbn [http_status text_body json_body];
    [|no_sound_created].
  destruct (response_ok _); cbn [negb]; [|destruct body as [body|?]; no_sound_created].
  destruct data as [data|?]; [|no_sound_created].
  destruct (get_prop data "transcription") as [t|]; [|no_sound_created].
  destruct (truthy t); cbn [negb]; [|no_sound_created].
  destruct (get_prop data "analysis") as [a|]; [|no_sound_created].
  destruct (truthy a); cbn [negb]; no_sound_created.
Qed.

Lemma play_holds_what_it_loads e s :
  exists more,
    trace (playPauseRecording e s) = trace s ++ more
    /\ forall file h, In (ESoundCreate file (Value h)) more ->
                      sound (ui (playPauseRecording e s)) = Some h.
Proof.
  destruct s as [[rec ruri sn pl sd tr an ti ld] rg tc].
  destruct e as [md cr st ss pa].
  unfold playPauseRecording. run_handler.
  cbn [play_mode_set sound_created play_started sound_status sound_paused].
  destruct sn as [h0|].
  - destruct ss as [[[|]|]|?]; [destruct pa as [[]|?]|destruct st as [[]|?]| |];
      extends_trace; intros file h; cbn; intuition discriminate.
  - destruct ruri as [[|c u]|];
      [extends_trace; intros file h; cbn; intuition discriminate|
      |extends_trace; intros file h; cbn; intuition discriminate].
    destruct md as [[]|?]; [|extends_trace; intros file h; cbn; intuition discriminate].
    destruct cr as [h1|?]; [|extends_trace; intros file h; cbn; intuition discriminate].
    destruct st as [[]|?]; extends_trace; intros file h; cbn;
      intuition (try discriminate); congruence.
Qed.

Lemma dispatch_holds_what_it_loads previous ev s :
  exists more,
    trace (dispatch previous ev s) = trace s ++ more
    /\ forall file h, In (ESoundCreate file (Value h)) more ->
                      sound (ui (dispatch previous ev s)) = Some h.
Proof.
  assert (forall s', (exists more, trace s' = trace s ++ more
                                   /\ forall file r, ~ In (ESoundCreate file r) more) ->
                     exists more, trace s' = trace s ++ more
                                  /\ forall file h, In (ESoundCreate file (Value h)) more ->
                                                    sound (ui s') = Some h) as Hnone.
  { intros s' (more & Ht & Hno). exists more. split; [exact Ht|].
    intros file h Hin. destruct (Hno _ _ Hin). }
  assert (exists more, trace s = trace s ++ more
                       /\ forall file r, ~ In (ESoundCreate file r) more) as Hrefl.
  { exists []. split; [now rewrite app_nil_r|]. intros file r []. }
  destruct ev as [se pe|e|fetched|fetched recordingUri recordingTitle|h0 l pl' fin
                 |rendered se pe];
    cbn [dispatch].
  - unfold pressRecord. destruct (recording (ui s));
      apply Hnone; [apply stop_loads_no_sound|apply start_loads_no_sound].
  - unfold pressPlay. destruct (recordedURI (ui s)) as [[|c uri]|];
      [now apply Hnone|apply play_holds_what_it_loads|now apply Hnone].
  - unfold pressSend. destruct (recordedURI (ui s)) as [[|c uri]|];
      [|destruct (isSending (ui s))|]; apply Hnone; try exact Hrefl.
    apply send_loads_no_sound.
  - apply Hnone. unfold paramsEffect. destruct (bool_decide _); [exact Hrefl|].
    unfold onParams. destruct recordingUri as [[|c uri]|]; try exact Hrefl.
    destruct s as [[rec ruri sn pl sd tr an ti ld] rg tc].
    match goal with
    | |- context [sendAudioForTranscription ?f ?u ?b] =>
        destruct (send_loads_no_sound f u b) as (more & Ht & Hno)
    end.
    exists more. split; [exact Ht|exact Hno].
  - apply Hnone. destruct s as [[rec ruri sn pl sd tr an ti ld] rg tc].
    unfold onPlaybackStatusUpdate. destruct l; cbn [negb]; [|exact Hrefl].
    run_handler. destruct fin; no_sound_created.
  - unfold pressRecord_on. destruct (recording rendered);
      apply Hnone; [apply stop_on_loads_no_sound|apply start_on_loads_no_sound].
Qed.

Lemma cleanup_unloads before s :
  ui (sound_cleanup before s) = ui s
  /\ exists extra,
       trace (sound_cleanup before s) = trace s ++ extra
       /\ (forall file r, ~ In (ESoundCreate file r) extra)
       /\ (forall h, before = Some h -> sound (ui s) = Some h \/ In (ESoundUnload h) extra).
Proof.
  destruct s as [[rec ruri sn pl sd tr an ti ld] rg tc].
  unfold sound_cleanup. run_handler.
  destruct before as [old|].
  - destruct sn as [now|]; [destruct (Nat.eqb_spec old now) as [->|Hne]|];
      (split; [reflexivity|]); extends_trace;
      (split; [intros file r; cbn; intuition discriminate|]);
      intros h [= <-]; cbn; auto.
  - split; [reflexivity|]. extends_trace.
    split; [intros file r []|discriminate].
Qed.

Lemma event_sound_disciplined previous ev s :
  sound_disciplined s (handle_event previous ev s).
Proof.
  unfold handle_event.
  destruct (dispatch_holds_what_it_loads previous ev s) as (more & Ht & Hheld).
  destruct (cleanup_unloads (sound (ui s)) (dispatch previous ev s))
    as (Hui & extra & Ht' & Hno & Hold).
  exists (more ++ extra). rewrite Ht', Ht, <- app_assoc, Hui.
  split; [reflexivity|]. split.
  - intros file h Hin. apply in_app_or in Hin as [Hin | Hin]; [now apply (Hheld file)|].
    destruct (Hno _ _ Hin).
  - intros h Hh. destruct (Hold h Hh); [now left|].
    right. apply in_or_app. now right.
Qed.

Lemma sound_tracked_step s s' : sound_tracked s -> sound_disciplined s s' -> sound_tracked s'.
Proof.
  intros Hs (more & Htrace & Hnew & Hold) file h Hh.
  rewrite Htrace in *. apply in_app_or in Hh as [Hh | Hh].
  - destruct (Hs file h Hh) as [Hheld | Hgone].
    + destruct (Hold h Hheld); [now left | right; apply in_or_app; now right].
    + right. apply in_or_app. now left.
  - left. now apply (Hnew file).
Qed.

(** X22.  No sound is lost: along every run of the screen's events from
    its initial state, each sound that [playPauseRecording] loaded is the
    one the screen holds or has been handed to [unloadAsync] (by the start of
    a capture, by the end-of-playback callback, or by the cleanup of the
    effect on the sound cell). *)
Theorem sounds_are_unloaded (disk : gmap string string) (evs : list event) :
  sound_tracked (run_events evs (initial_app disk)).
Proof.
  assert (forall previous s,
             sound_tracked s -> sound_tracked (run_from previous evs s)) as Hrun.
  { induction evs as [|ev evs IH]; intros previous s Hs; [exact Hs|].
    cbn [run_from]. apply IH.
    eapply sound_tracked_step; [exact Hs|apply event_sound_disciplined]. }
  apply Hrun. intros file h [].
Qed.

(** X23.  What a press of the play button does.  While a sound is held it
    loads no other one: it asks the sound for its status and pauses it when
    it plays, plays it when it does not, and does nothing when it is not
    loaded.  While none is held and a URI is recorded it loads that URI and
    no other file; the play flag is set only when loading and starting both
    went through, and a sound whose start was rejected stays held without
    playing. *)
Theorem play_press_outcome (e : PlayEnv) (s : App) :
  let s' := playPauseRecording e s in
  (forall h,
      sound (ui s) = Some h ->
      sound (ui s') = Some h
      /\ (exists more,
            trace s' = trace s ++ more
            /\ forall file r, ~ In (ESoundCreate file r) more)
      /\ (sound_status e = Value (Some true) -> sound_paused e = Value tt ->
          isPlaying (ui s') = false
          /\ trace s' = trace s ++ [ESoundStatus h; ESoundPause h])
      /\ (sound_status e = Value (Some false) -> play_started e = Value tt ->
          isPlaying (ui s') = true
          /\ trace s' = trace s ++ [ESoundStatus h; ESoundPlay h])
      /\ (sound_status e = Value None -> ui s' = ui s))
  /\ (forall uri,
         sound (ui s) = None -> recordedURI (ui s) = Some uri -> uri <> EmptyString ->
         (exists more,
             trace s' = trace s ++ more
             /\ (forall file r, In (ESoundCreate file r) more -> file = uri)
             /\ (play_mode_set e = Value tt ->
                 In (ESoundCreate uri (sound_created e)) more))
         /\ (forall h,
                play_mode_set e = Value tt -> sound_created e = Value h ->
                (play_started e = Value tt ->
                 sound (ui s') = Some h /\ isPlaying (ui s') = true
                 /\ trace s'
                    = trace s ++ [ESetAudioMode false; ESoundCreate uri (Value h);
                                  ESoundPlay h])
                /\ (forall error, play_started e = Thrown error ->
                                  sound (ui s') = Some h /\ isPlaying (ui s') = false
                                  /\ trace s'
                                     = trace s
                                         ++ [ESetAudioMode false;
                                             ESoundCreate uri (Value h);
                                             ESoundPlay h;
                                             EConsoleError "Playback failed:" error]))
         /\ (forall error,
                play_mode_set e = Thrown error
                \/ (play_mode_set e = Value tt /\ sound_created e = Thrown error) ->
                sound (ui s') = None /\ isPlaying (ui s') = false)).
Proof.
  destruct s as [[rec ruri sn pl sd tr an ti ld] rg tc].
  destruct e as [md cr st ss pa].
  cbn [ui sound recordedURI play_mode_set sound_created play_started sound_status
       sound_paused].
  unfold playPauseRecording. run_handler.
  cbn [play_mode_set sound_created play_started sound_status sound_paused].
  split.
  - intros h ->. split; [|split; [|split; [|split]]].
    + destruct ss as [[[|]|]|?]; [destruct pa as [[]|?]|destruct st as [[]|?]| |];
        reflexivity.
    + destruct ss as [[[|]|]|?]; [destruct pa as [[]|?]|destruct st as [[]|?]| |];
        no_sound_created.
    + intros -> ->. split; [reflexivity|now rewrite <- app_assoc].
    + intros -> ->. split; [reflexivity|now rewrite <- app_assoc].
    + intros ->. reflexivity.
  - intros uri -> -> Hne. destruct uri as [|c uri]; [done|]. split; [|split].
    + destruct md as [[]|?]; [destruct cr as [h|?]; [destruct st as [[]|?]|]|];
        (eexists; split; [rewrite <- ?app_assoc; reflexivity|]);
        (split; [intros file r; cbn; intuition congruence|]);
        intros; cbn; intuition congruence.
    + intros h -> ->. split.
      * intros ->. split; [reflexivity|]. split; [reflexivity|].
        now rewrite <- !app_assoc.
      * intros error ->. split; [reflexivity|]. split; [reflexivity|].
        now rewrite <- !app_assoc.
    + intros error [-> | [-> ->]]; split; reflexivity.
Qed.

Lemma play_press_outcome_witness :
  sound (ui (playPauseRecording (play_loaded 3%nat) captured)) = Some 3%nat
  /\ isPlaying (ui (playPauseRecording (play_loaded 3%nat) captured)) = true
  /\ trace (playPauseRecording (play_loaded 3%nat) captured)
     = trace captured ++ [ESetAudioMode false;
                          ESoundCreate "file:///rec/new.m4a" (Value 3%nat);
                          ESoundPlay 3%nat]
  /\ isPlaying
       (ui (playPauseRecording (play_loaded 4%nat)
              (playPauseRecording (play_loaded 3%nat) captured))) = false.
Proof.
  destruct (play_press_outcome (play_loaded 3%nat) captured) as [_ Hfirst].
  destruct (play_press_outcome (play_loaded 4%nat)
              (playPauseRecording (play_loaded 3%nat) captured)) as [Hagain _].
  destruct (Hfirst "file:///rec/new.m4a") as (_ & Hload & _);
    [reflexivity | reflexivity | discriminate |].
  destruct (Hload 3%nat eq_refl eq_refl) as [Hplay _].
  destruct (Hplay eq_refl) as (Hs & Hp & Ht).
  destruct (Hagain 3%nat Hs) as (_ & _ & Hpause & _).
  destruct (Hpause eq_refl eq_refl) as [Hflag _].
  exact (conj Hs (conj Hp (conj Ht Hflag))).
Defined.

(** ** The registry: update, then lookup *)

Lemma find_after_update i j updates l :
  upd_id updates = None ->
  List.find (fun recording => String.eqb (id recording) j)
    (List.map (fun recording =>
                 if String.eqb (id recording) i then spread recording updates
                 else recording) l)
  = (fun r => if String.eqb (id r) i then spread r updates else r)
      <$> List.find (fun recording => String.eqb (id recording) j) l.
Proof.
  intros Hid. induction l as [|r l IH]; [reflexivity|]. cbn [List.map List.find].
  assert (id (if String.eqb (id r) i then spread r updates else r) = id r) as ->.
  { destruct (String.eqb (id r) i); [|reflexivity]. unfold spread. cbn [id].
    now rewrite Hid. }
  destruct (String.eqb (id r) j); [reflexivity|exact IH].
Qed.

(** X24.  After a successful [updateRecording] whose updates carry no
    [id], the lookup of the updated id returns the entry it returned before
    with the updates merged in, and the lookup of any other id returns what
    it returned before. *)
Theorem update_then_get (p : Registry) (i : string) (updates : Partial_Recording) :
  upd_id updates = None ->
  getRecording i (updateRecording true i updates p)
  = (fun r => spread r updates) <$> getRecording i p
  /\ forall j, j <> i ->
       getRecording j (updateRecording true i updates p) = getRecording j p.
Proof.
  intros Hid. unfold getRecording. rewrite updateRecording_recordings. split.
  - rewrite find_after_update by done.
    destruct (List.find _ (recordings p)) as [r|] eqn:Hr; [|reflexivity].
    apply find_some in Hr as [_ Hr]. cbn. now rewrite Hr.
  - intros j Hj. rewrite find_after_update by done.
    destruct (List.find _ (recordings p)) as [r|] eqn:Hr; [|reflexivity].
    apply find_some in Hr as [_ Hr]. apply String.eqb_eq in Hr. cbn.
    destruct (String.eqb_spec (id r) i); [congruence|reflexivity].
Qed.

Lemma update_then_get_witness :
  getRecording "r3" (updateRecording true "r3" (only_title "Renamed") two_recordings)
  = Some {| id := "r3"; uri := "file:///rec/three.m4a"; duration := div1000 61500;
            timestamp := of_int 1762075020000; summary := None; title := "Renamed" |}
  /\ getRecording "r1" (updateRecording true "r3" (only_title "Renamed") two_recordings)
     = Some rec1.
Proof.
  destruct (update_then_get two_recordings "r3" (only_title "Renamed") eq_refl)
    as [Hhit Hother].
  split; [exact Hhit|]. apply Hother. discriminate.
Defined.

(** ** The history item: renaming *)

Lemma trim_start_suffix cs :
  exists pre, cs = pre ++ trim_start cs /\ forallb is_white_space pre = true.
Proof.
  induction cs as [|c cs (pre & Hpre & Hws)]; [exists []; done|].
  cbn [trim_start]. destruct (is_white_space c) eqn:Hc.
  - exists (c :: pre). cbn. rewrite Hc, Hws. split; [now f_equal|reflexivity].
  - exists []. done.
Qed.

Lemma trim_start_head cs c more :
  trim_start cs = c :: more -> is_white_space c = false.
Proof.
  induction cs as [|x cs IH]; cbn [trim_start]; [discriminate|].
  destruct (is_white_space x) eqn:Hx; [exact IH|]. now intros [= <- _].
Qed.

Lemma trim_start_blank cs : forallb is_white_space cs = true -> trim_start cs = [].
Proof.
  induction cs as [|c cs IH]; [reflexivity|]. cbn. intros H.
  apply andb_prop in H as [-> H]. now apply IH.
Qed.

Lemma trim_blank s :
  forallb is_white_space (list_ascii_of_string s) = true -> trim s = EmptyString.
Proof.
  intros H. unfold trim.
  now rewrite (trim_start_blank (list_ascii_of_string s)) by exact H.
Qed.

Lemma trim_ends s :
  (forall c more, list_ascii_of_string (trim s) = c :: more -> is_white_space c = false)
  /\ (forall front c, list_ascii_of_string (trim s) = front ++ [c] ->
                      is_white_space c = false).
Proof.
  unfold trim. rewrite list_ascii_of_string_of_list_ascii.
  set (X := trim_start (list_ascii_of_string s)).
  destruct (trim_start_suffix (rev X)) as (pre & Hpre & _).
  set (Y := trim_start (rev X)) in *.
  assert (X = rev Y ++ rev pre) as HX.
  { rewrite <- (rev_involutive X), Hpre, rev_app_distr. reflexivity. }
  split.
  - intros c more Hc. rewrite Hc in HX. cbn in HX.
    apply (trim_start_head (list_ascii_of_string s) c (more ++ rev pre)). exact HX.
  - intros front c Hc.
    apply (f_equal (@rev ascii)) in Hc. rewrite rev_involutive, rev_app_distr in Hc.
    cbn in Hc. apply (trim_start_head (rev X) c (rev front)). exact Hc.
Qed.

(** X25.  [handleRename] refuses a title that is empty or all white space:
    it shows the alert [Title cannot be empty] and changes neither the
    registry nor the item (the dialog stays open with the text as typed). *)
Theorem rename_blank_rejected (ok : bool) (recording : Recording) (w : ItemWorld) :
  forallb is_white_space (list_ascii_of_string (newTitle (item w))) = true ->
  item_reg (handleRename ok recording w) = item_reg w
  /\ item (handleRename ok recording w) = item w
  /\ item_trace (handleRename ok recording w)
     = item_trace w ++ [Platform (EAlert "Error" "Title cannot be empty")].
Proof.
  intros Hblank. unfold handleRename. rewrite (trim_blank _ Hblank). done.
Qed.

Lemma rename_blank_rejected_witness :
  item_reg (handleRename true rec1
              {| item := setNewTitle "   " (item renaming);
                 item_reg := two_recordings; item_trace := [] |})
  = two_recordings.
Proof.
  apply (rename_blank_rejected true rec1
           {| item := setNewTitle "   " (item renaming);
              item_reg := two_recordings; item_trace := [] |}).
  reflexivity.
Defined.

Lemma forallb_rev {A} (f : A -> bool) l : forallb f l = true -> forallb f (rev l) = true.
Proof.
  rewrite !forallb_forall. intros H x Hx. apply H. now apply in_rev.
Qed.

Lemma trim_split s :
  exists before after,
    list_ascii_of_string s = before ++ list_ascii_of_string (trim s) ++ after
    /\ forallb is_white_space before = true
    /\ forallb is_white_space after = true.
Proof.
  unfold trim. rewrite list_ascii_of_string_of_list_ascii.
  destruct (trim_start_suffix (list_ascii_of_string s)) as (before & Hs & Hbefore).
  destruct (trim_start_suffix (rev (trim_start (list_ascii_of_string s))))
    as (after & Hrev & Hafter).
  exists before, (rev after). split; [|split; [exact Hbefore|now apply forallb_rev]].
  rewrite <- rev_app_distr, <- Hrev, rev_involutive. exact Hs.
Qed.

(** X26.  A title that [handleRename] hands to the registry is the typed
    text without its leading and trailing white space: the typed text is
    white space, the title, white space, and the title is not empty and
    neither begins nor ends with white space.  With a successful save the
    lookup of the recording's id then returns the entry it returned before
    under the new title. *)
Theorem rename_stores_trimmed (ok : bool) (recording : Recording) (w : ItemWorld) :
  let t := trim (newTitle (item w)) in
  t <> EmptyString ->
  item_reg (handleRename ok recording w)
  = updateRecording ok (id recording) (only_title t) (item_reg w)
  /\ (exists before after,
        list_ascii_of_string (newTitle (item w))
        = before ++ list_ascii_of_string t ++ after
        /\ forallb is_white_space before = true
        /\ forallb is_white_space after = true)
  /\ (forall c more, list_ascii_of_string t = c :: more -> is_white_space c = false)
  /\ (forall front c, list_ascii_of_string t = front ++ [c] -> is_white_space c = false)
  /\ (ok = true ->
      getRecording (id recording) (item_reg (handleRename ok recording w))
      = (fun r => spread r (only_title t)) <$> getRecording (id recording) (item_reg w)).
Proof.
  intros t Ht. unfold handleRename. fold t.
  apply String.eqb_neq in Ht. rewrite Ht. cbn [item_reg].
  split; [reflexivity|]. split; [apply trim_split|].
  split; [apply trim_ends|]. split; [apply trim_ends|].
  intros ->. unfold getRecording. rewrite updateRecording_recordings.
  rewrite find_after_update by reflexivity.
  destruct (List.find _ (recordings (item_reg w))) as [r|] eqn:Hr; [|reflexivity].
  apply find_some in Hr as [_ Hr]. cbn. now rewrite Hr.
Qed.

Lemma rename_stores_trimmed_witness :
  getRecording "r1" (item_reg (handleRename true rec1 renaming))
  = Some {| id := "r1"; uri := "file:///rec/one.m4a"; duration := div1000 3456;
            timestamp := of_int 1762074900000; summary := None;
            title := "Budget call" |}.
Proof.
  destruct (rename_stores_trimmed true rec1 renaming) as (_ & _ & _ & _ & Hget).
  - vm_compute. discriminate.
  - apply Hget. reflexivity.
Defined.

(** X27.  A rename whose save fails is silent for the user: the registry
    keeps the titles it had and only its own log gains a line, while the
    item closes the dialog and shows no alert, exactly as after a successful
    rename. *)
Theorem rename_failure_is_silent (recording : Recording) (w : ItemWorld) :
  trim (newTitle (item w)) <> EmptyString ->
  recordings (item_reg (handleRename false recording w)) = recordings (item_reg w)
  /\ errors (item_reg (handleRename false recording w))
     = errors (item_reg w) ++ ["Error updating recording:"]
  /\ item (handleRename false recording w) = item (handleRename true recording w)
  /\ isEditing (item (handleRename false recording w)) = false
  /\ item_trace (handleRename false recording w) = item_trace w.
Proof.
  intros Ht. unfold handleRename. apply String.eqb_neq in Ht. rewrite Ht. done.
Qed.

Lemma rename_failure_is_silent_witness :
  recordings (item_reg (handleRename false rec1 renaming)) = [rec1; rec3]
  /\ isEditing (item (handleRename false rec1 renaming)) = false.
Proof.
  destruct (rename_failure_is_silent rec1 renaming) as (Hrec & _ & _ & Hclosed & _).
  - vm_compute. discriminate.
  - exact (conj Hrec Hclosed).
Defined.

(** ** The history item: deleting and analysing *)

(** X28.  [handleDelete] unloads the sound the item holds before it
    deletes, and the deletion depends on it: when the unloading rejects, the
    recording stays in the registry and the error is logged; when no sound is
    held or the unloading resolves, [deleteRecording] is called with the
    recording's id, after which (the save succeeding) no entry has that
    id. *)
Theorem delete_item_outcome (unloaded : outcome unit) (ok : bool) (recording : Recording)
    (w : ItemWorld) :
  let w' := handleDelete unloaded ok recording w in
  (forall h error,
      item_sound (item w) = Some h -> unloaded = Thrown error ->
      item_reg w' = item_reg w
      /\ item_trace w'
         = item_trace w ++ [Platform (ESoundUnload h);
                            Platform (EConsoleError "Error deleting recording:" error)])
  /\ (item_sound (item w) = None \/ unloaded = Value tt ->
      item_reg w' = deleteRecording ok (id recording) (item_reg w)
      /\ (ok = true -> id recording ∉ ids (recordings (item_reg w')))
      /\ item_trace w'
         = item_trace w ++ match item_sound (item w) with
                           | Some h => [Platform (ESoundUnload h)]
                           | None => []
                           end).
Proof.
  intros w'. subst w'. unfold handleDelete. split.
  - intros h error -> ->. done.
  - intros H.
    assert (ok = true ->
            id recording ∉ ids (recordings (deleteRecording ok (id recording) (item_reg w))))
      as Hgone.
    { intros ->. rewrite deleteRecording_recordings.
      intros Hin. apply list_elem_of_In, in_map_iff in Hin as (r & Hr & Hrin).
      apply filter_In in Hrin as [_ Hrin].
      apply negb_true_iff, String.eqb_neq in Hrin. congruence. }
    destruct (item_sound (item w)) as [h|].
    + destruct H as [H | ->]; [discriminate|]. cbn. done.
    + cbn. now rewrite app_nil_r.
Qed.

Lemma delete_item_outcome_witness :
  item_reg (handleDelete (Thrown "unload failed") true rec1 playing_item) = two_recordings
  /\ recordings (item_reg (handleDelete (Value tt) true rec1 playing_item)) = [rec3].
Proof.
  destruct (delete_item_outcome (Thrown "unload failed") true rec1 playing_item)
    as [Hstays _].
  destruct (delete_item_outcome (Value tt) true rec1 playing_item) as [_ Hgone].
  split.
  - apply (Hstays 9%nat "unload failed"); reflexivity.
  - destruct Hgone as (-> & _); [right; reflexivity|]. reflexivity.
Defined.



(** ** The earlier revision of the upload *)

(** X30.  The upload of the earliest revision of the screen, with a
    non-empty recorded URI: the request is made exactly when the file system
    reports that the file exists, and then once; the sending flag is off
    again whatever happened; a missing file is reported as
    [File does not exist]; and an answer outside 200..299 whose body can be
    read is reported to the user with its status and body, the transcription
    staying cleared. *)
Theorem earlier_upload_outcome (file_exists : outcome bool) (fetched : outcome Response)
    (uri : string) (s : App) :
  uri <> EmptyString ->
  recordedURI (ui s) = Some uri ->
  let s' := Part001.sendAudioForTranscription file_exists fetched s in
  isSending (ui s') = false
  /\ fetches (trace s')
     = fetches (trace s) ++ match file_exists with
                            | Value true => [(Part001.transcribe_url, uri)]
                            | _ => []
                            end
  /\ (file_exists = Value false ->
      transcription (ui s') = None
      /\ In (EAlert "Error Sending Audio" "File does not exist") (trace s'))
  /\ (forall res body,
        file_exists = Value true -> fetched = Value res ->
        response_ok res = false -> text_body res = Value body ->
        transcription (ui s') = None
        /\ In (EAlert "Error Sending Audio"
                 ("Server error: " ++ show_int (http_status res) ++ " - " ++ body))
              (trace s')).
Proof.
  intros Hne Hu s'. subst s'. destruct s as [[rec ruri sn pl sd tr an ti ld] rg tc].
  cbn in Hu. subst ruri. destruct uri as [|c uri]; [done|].
  unfold Part001.sendAudioForTranscription. cbn [recordedURI ui].
  destruct file_exists as [[|]|?].
  - destruct fetched as [[status body data]|?].
    + destruct (response_ok {| http_status := status; text_body := body;
                               json_body := data |}) eqn:Hok.
      * run_handler. cbn [http_status text_body json_body negb]. rewrite Hok.
        cbn [negb].
        destruct data as [data|?];
          [destruct (get_prop data "transcription") as [t|]|];
          (split; [reflexivity|]); (split; [rewrite !fetches_app; cbn;
                                            now rewrite ?app_nil_r|]);
          (split; [discriminate|]); intros res b _ [= <-]; congruence.
      * run_handler. cbn [http_status text_body json_body negb]. rewrite Hok.
        cbn [negb].
        destruct body as [body|?];
          (split; [reflexivity|]); (split; [rewrite !fetches_app; cbn;
                                            now rewrite ?app_nil_r|]);
          (split; [discriminate|]); intros res b _ [= <-] _; cbn [text_body];
          intros [= <-].
        split; [reflexivity|]. cbn [http_status trace].
        rewrite !in_app_iff. right. cbn. auto.
    + run_handler. cbn [negb]. run_handler. split; [reflexivity|].
      split; [rewrite !fetches_app; cbn; now rewrite ?app_nil_r|].
      split; [discriminate|]. discriminate.
  - run_handler. cbn [negb]. split; [reflexivity|].
    split; [rewrite !fetches_app; cbn; now rewrite ?app_nil_r|].
    split; [|discriminate]. intros _. split; [reflexivity|].
    cbn [trace]. rewrite !in_app_iff. right. cbn. auto.
  - run_handler. split; [reflexivity|].
    split; [rewrite !fetches_app; cbn; now rewrite ?app_nil_r|].
    split; discriminate.
Qed.

Lemma earlier_upload_outcome_witness :
  fetches (trace (Part001.sendAudioForTranscription (Value false)
                    (Value (ok_response JNull)) captured)) = []
  /\ In (EAlert "Error Sending Audio" "Server error: 503 - busy")
        (trace (Part001.sendAudioForTranscription (Value true)
                  (Value (error_response 503 "busy")) captured)).
Proof.
  destruct (earlier_upload_outcome (Value false) (Value (ok_response JNull))
              "file:///rec/new.m4a" captured) as (_ & Hnone & _);
    [discriminate|reflexivity|].
  destruct (earlier_upload_outcome (Value true) (Value (error_response 503 "busy"))
              "file:///rec/new.m4a" captured) as (_ & _ & _ & Hserver);
    [discriminate|reflexivity|].
  split.
  - exact Hnone.
  - apply (Hserver (error_response 503 "busy") "busy"); reflexivity.
Defined.
